(** * A shallow embedding of the object store, pkt-line framing, packfile
    ingestion, delta resolution and checkout of mygit
    (src/cmd/mygit/clone.go, src/unnamed/part_001).

    Conventions of the embedding.
    - Go byte slices are [list byte]; a byte is read as an integer with
      [bv] and written back with [zb].
    - Go strings used as names (hashes, types, paths) are [string].
    - A Go function that may fail returns an [outcome]: [Ok], a returned
      [Err] with the Go error text, or a runtime [Panic] (index or slice
      out of range). [NoFuel] is only produced when the recursion bound of
      a loop model runs out; the lemmas below show where it cannot happen.
    - A slice expression [s[lo:hi]] is checked against [len(s)].
    - Library code the program calls (zlib, HTTP, the file system) is a
      parameter of the Sections below; SHA-1 is given concretely. *)

From Stdlib Require Import ZArith List String Ascii Lia.
From Stdlib.Strings Require Import Byte.
From stdpp Require Import base gmap strings list.
From Stdlib Require Import Sorted.

Import ListNotations.
Open Scope Z_scope.

(* ------------------------------------------------------------------ *)
(** ** Go values *)

Definition bv (b : byte) : Z := Z.of_N (Byte.to_N b).

Definition zb (z : Z) : byte :=
  match Byte.of_N (Z.to_N (z mod 256)) with
  | Some b => b
  | None => Byte.x00
  end.

Definition bytes_of (s : string) : list byte := list_byte_of_string s.
Definition string_of (l : list byte) : string := string_of_list_byte l.

Inductive outcome (A : Type) : Type :=
| Ok (a : A)
| Err (msg : string)
| Panic (msg : string)
| NoFuel.
Arguments Ok {A} a.
Arguments Err {A} msg.
Arguments Panic {A} msg.
Arguments NoFuel {A}.

Definition failed {A} (o : outcome A) : bool :=
  match o with Ok _ => false | _ => true end.

(** Propagation of a failure into another result type. *)
Definition fail_as {A B} (o : outcome A) : outcome B :=
  match o with
  | Ok _ => Panic "unreachable"
  | Err m => Err m
  | Panic m => Panic m
  | NoFuel => NoFuel
  end.

Definition obind {A B} (o : outcome A) (k : A -> outcome B) : outcome B :=
  match o with
  | Ok a => k a
  | Err m => Err m
  | Panic m => Panic m
  | NoFuel => NoFuel
  end.

Notation "'let?' x ':=' c 'in' k" := (obind c (fun x => k))
  (at level 200, x name, c at level 100, k at level 200).

(** [s[i]] *)
Definition index (s : list byte) (i : nat) : outcome byte :=
  match nth_error s i with
  | Some b => Ok b
  | None => Panic "index out of range"
  end.

(** [s[lo:hi]] *)
Definition slice (s : list byte) (lo hi : nat) : outcome (list byte) :=
  if (lo <=? hi)%nat && (hi <=? length s)%nat
  then Ok (firstn (hi - lo) (skipn lo s))
  else Panic "slice bounds out of range".

(** [s[lo:hi]] on a slice with [spare] bytes of unused capacity: Go checks
    [lo <= hi <= cap(s)], not [len(s)], and the bytes of the backing array
    past [len(s)] are zero (the buffers this program reads into are fresh
    allocations, and readers write only the bytes they report). *)
Definition slice_spare (s : list byte) (spare : nat) (lo hi : nat) : outcome (list byte) :=
  slice (s ++ repeat Byte.x00 spare) lo hi.

(** [s[lo:]] *)
Definition slice_from (s : list byte) (lo : nat) : outcome (list byte) :=
  if (lo <=? length s)%nat then Ok (skipn lo s) else Panic "slice bounds out of range".

(** Go's [uint64] arithmetic. *)
Definition u64 (z : Z) : Z := z mod 2 ^ 64.

(** Go's [int(x)] of a [uint64] value on a 64-bit platform. *)
Definition go_int (x : Z) : Z := if x <? 2 ^ 63 then x else x - 2 ^ 64.

(* ------------------------------------------------------------------ *)
(** ** SHA-1 (crypto/sha1.Sum), FIPS 180-4 *)

Module SHA1.

Definition w32 (z : Z) : Z := z mod 2 ^ 32.

Definition rotl (n x : Z) : Z :=
  w32 (Z.lor (Z.shiftl x n) (Z.shiftr x (32 - n))).

Definition be_bytes (n : nat) (z : Z) : list byte :=
  map (fun i => zb (Z.shiftr z (8 * Z.of_nat (n - 1 - i)))) (seq 0 n).

Fixpoint words (l : list byte) : list Z :=
  match l with
  | b0 :: b1 :: b2 :: b3 :: r =>
      (bv b0 * 2 ^ 24 + bv b1 * 2 ^ 16 + bv b2 * 2 ^ 8 + bv b3) :: words r
  | _ => []
  end.

Definition pad (m : list byte) : list byte :=
  let L := Z.of_nat (length m) in
  m ++ [Byte.x80] ++ repeat Byte.x00 (Z.to_nat ((55 - L) mod 64))
    ++ be_bytes 8 (8 * L).

Definition round_fk (t : nat) (b c d : Z) : Z * Z :=
  if (t <? 20)%nat then (Z.lor (Z.land b c) (Z.land (Z.lxor b (2 ^ 32 - 1)) d), 1518500249)
  else if (t <? 40)%nat then (Z.lxor (Z.lxor b c) d, 1859775393)
  else if (t <? 60)%nat then
    (Z.lor (Z.lor (Z.land b c) (Z.land b d)) (Z.land c d), 2400959708)
  else (Z.lxor (Z.lxor b c) d, 3395469782).

Record hstate := { h0 : Z; h1 : Z; h2 : Z; h3 : Z; h4 : Z }.

Definition init : hstate :=
  {| h0 := 1732584193; h1 := 4023233417; h2 := 2562383102;
     h3 := 271733878; h4 := 3285377520 |}.

(** 80 rounds; [window] holds the schedule words [w[t] .. w[t+15]]. *)
Fixpoint rounds (n t : nat) (window : list Z) (s : hstate) : hstate :=
  match n with
  | O => s
  | S n' =>
      let wt := nth 0 window 0 in
      let next := rotl 1 (Z.lxor (Z.lxor (nth 13 window 0) (nth 8 window 0))
                                 (Z.lxor (nth 2 window 0) wt)) in
      let '(f, k) := round_fk t (h1 s) (h2 s) (h3 s) in
      let tmp := w32 (rotl 5 (h0 s) + f + h4 s + k + wt) in
      rounds n' (S t) (tl window ++ [next])
        {| h0 := tmp; h1 := h0 s; h2 := rotl 30 (h1 s); h3 := h2 s; h4 := h3 s |}
  end.

Definition compress (h : hstate) (block : list byte) : hstate :=
  let r := rounds 80 0 (words block) h in
  {| h0 := w32 (h0 h + h0 r); h1 := w32 (h1 h + h1 r); h2 := w32 (h2 h + h2 r);
     h3 := w32 (h3 h + h3 r); h4 := w32 (h4 h + h4 r) |}.

Fixpoint blocks (fuel : nat) (h : hstate) (m : list byte) : hstate :=
  match fuel with
  | O => h
  | S f =>
      match m with
      | [] => h
      | _ => blocks f (compress h (firstn 64 m)) (skipn 64 m)
      end
  end.

Definition sum (m : list byte) : list byte :=
  let p := pad m in
  let h := blocks (length p) init p in
  be_bytes 4 (h0 h) ++ be_bytes 4 (h1 h) ++ be_bytes 4 (h2 h)
    ++ be_bytes 4 (h3 h) ++ be_bytes 4 (h4 h).

End SHA1.

(* ------------------------------------------------------------------ *)
(** ** Hexadecimal (fmt "%x", encoding/hex) *)

Definition hexdig (d : Z) : byte := if d <? 10 then zb (48 + d) else zb (87 + d).

(** [hexDump] in part_001 and [hex.EncodeToString]: lowercase hex. *)
Definition hexDump (b : list byte) : string :=
  string_of (concat (map (fun x => [hexdig (bv x / 16); hexdig (bv x mod 16)]) b)).

(** [hash] in part_001. *)
Definition hash (b : list byte) : list byte := SHA1.sum b.

#[global] Instance byte_eq_dec : EqDecision byte := Byte.byte_eq_dec.

(** [hex.Decode] of one character (upper and lower case accepted). *)
Definition fromHexChar (c : byte) : option Z :=
  let z := bv c in
  if (48 <=? z) && (z <=? 57) then Some (z - 48)
  else if (97 <=? z) && (z <=? 102) then Some (z - 87)
  else if (65 <=? z) && (z <=? 70) then Some (z - 55)
  else None.

(* ------------------------------------------------------------------ *)
(** ** fmt: "%d" printing and the scanner of [fmt.Sscanf] *)

Fixpoint digits_rev (fuel : nat) (z : Z) : list byte :=
  match fuel with
  | O => []
  | S f => zb (48 + z mod 10) :: (if z <? 10 then [] else digits_rev f (z / 10))
  end.

(** "%d" of a non-negative [int] (its only use is [len(object)]). *)
Definition fmt_d (z : Z) : list byte := rev (digits_rev (S (Z.to_nat (Z.log2 z))) z).

(** White space of the scanner, ASCII part: tab, newline, vertical tab,
    form feed, carriage return and space. (Go also counts a few non-ASCII
    code points such as U+0085 and U+00A0; they are not modelled.) *)
Definition is_space (c : byte) : bool :=
  let z := bv c in (z =? 32) || ((9 <=? z) && (z <=? 13)).

Definition is_newline (c : byte) : bool := bv c =? 10.

Definition is_digit (c : byte) : bool := (48 <=? bv c) && (bv c <=? 57).

(** [ss.SkipSpace] with newlines not counting as space (Sscanf). *)
Fixpoint skipSpace (l : list byte) : outcome (list byte) :=
  match l with
  | [] => Ok []
  | c :: r =>
      if is_newline c then Err "unexpected newline"
      else if is_space c then skipSpace r
      else Ok l
  end.

(** [ss.token]: the longest prefix of non-space bytes. *)
Fixpoint token (l : list byte) : list byte * list byte :=
  match l with
  | [] => ([], [])
  | c :: r => if is_space c then ([], l) else let '(t, rest) := token r in (c :: t, rest)
  end.

(** The verb %s. *)
Definition scan_s (l : list byte) : outcome (list byte * list byte) :=
  let? l := skipSpace l in
  match l with
  | [] => Err "unexpected EOF"
  | _ => Ok (token l)
  end.

(** A space of the format not after a newline: one or more spaces of the
    input, or its end. *)
Fixpoint skip_blanks (l : list byte) : list byte :=
  match l with
  | c :: r => if is_space c && negb (is_newline c) then skip_blanks r else l
  | [] => []
  end.

Definition fmt_space (l : list byte) : outcome (list byte) :=
  match l with
  | [] => Ok []
  | c :: r =>
      if is_newline c then Err "newline in input does not match format"
      else if negb (is_space c) then Err "expected space in input to match format"
      else Ok (skip_blanks l)
  end.

Fixpoint take_digits (l : list byte) : list byte * list byte :=
  match l with
  | c :: r => if is_digit c then let '(d, rest) := take_digits r in (c :: d, rest) else ([], l)
  | [] => ([], [])
  end.

Definition digits_value (d : list byte) : Z :=
  fold_left (fun acc c => acc * 10 + (bv c - 48)) d 0.

(** The verb %d into an [int]: optional sign, at least one decimal digit,
    and [strconv.ParseInt(tok, 10, 64)], which fails out of the int64 range. *)
Definition scan_d (l : list byte) : outcome (Z * list byte) :=
  let? l := skipSpace l in
  match l with
  | [] => Err "unexpected EOF"
  | c :: r =>
      let '(sgn, l') := if bv c =? 45 then (-1, r) else if bv c =? 43 then (1, r) else (1, l) in
      let '(d, rest) := take_digits l' in
      match d with
      | [] => Err "expected integer"
      | _ =>
          let v := sgn * digits_value d in
          if (- 2 ^ 63 <=? v) && (v <? 2 ^ 63) then Ok (v, rest) else Err "value out of range"
      end
  end.

(** [fmt.Sscanf(s, "%s %d", &str, &n)]: the values left in [str] and [n]
    (initially "" and 0); scanning stops at the first error. *)
Definition sscanf_s_d (input : list byte) : string * Z :=
  match scan_s input with
  | Ok (tok, rest) =>
      match (let? r := fmt_space rest in scan_d r) with
      | Ok (n, _) => (string_of tok, n)
      | _ => (string_of tok, 0)
      end
  | _ => (""%string, 0)
  end.

(** [fmt.Sscanf(s, "%s %s", &a, &b)]. *)
Definition sscanf_s_s (input : list byte) : string * string :=
  match scan_s input with
  | Ok (tok, rest) =>
      match (let? r := fmt_space rest in scan_s r) with
      | Ok (tok2, _) => (string_of tok, string_of tok2)
      | _ => (string_of tok, ""%string)
      end
  | _ => (""%string, ""%string)
  end.

(* ------------------------------------------------------------------ *)
(** ** Pkt-lines: [readPktLine] and [getObjectName] (clone.go) *)

(** [readPktLine] on a slice [blob] with [spare] bytes of unused
    capacity; [blob[4:]] keeps them. *)
Definition readPktLine (blob : list byte) (spare : nat) : outcome (nat * list byte) :=
  let? pktLength := slice_spare blob spare 0 4 in
  let? blob := slice_from blob 4 in
  match map fromHexChar pktLength with
  | [Some a; Some b; Some c; Some d] =>
      let size := (a * 16 + b) * 256 + (c * 16 + d) in
      if size =? 0 then Ok (4%nat, []) else
      if Z.of_nat (length blob) <? size - 4 then Err "error reading pkt line" else
      (* [size-4] is uint16 arithmetic *)
      let? data := slice_spare blob spare 0 (Z.to_nat ((size - 4) mod 2 ^ 16)) in
      let? last := index data (length data - 1) in
      if Nat.eqb (length data) 0 then Panic "index out of range" else
      let data := if bv last =? 10 then firstn (length data - 1) data else data in
      Ok (Z.to_nat size, data)
  | _ => Err "encoding/hex: invalid byte"
  end.

Fixpoint getObjectName_loop (pktLines : list (list byte)) : outcome string :=
  match pktLines with
  | [] => Err "invalid pktLines"
  | pktLine :: rest =>
      if Nat.eqb (length pktLine) 0 then getObjectName_loop rest else
      let '(hash, ref) := sscanf_s_s pktLine in
      if String.eqb ref "refs/heads/master" then Ok hash else getObjectName_loop rest
  end.

(** [pktLines[1:]] panics on an empty list. *)
Definition getObjectName (pktLines : list (list byte)) : outcome string :=
  match pktLines with
  | [] => Panic "slice bounds out of range"
  | _ :: rest => getObjectName_loop rest
  end.

(* ------------------------------------------------------------------ *)
(** ** Varints and the pack envelope (clone.go) *)

(** The shared loop of [readObjectHeader] and [readSize]: [rest] is
    [packfile[used:]], [data] the byte read last. *)
Fixpoint varint_loop (msg : string) (rest : list byte) (data : byte) (used : nat)
    (size shift : Z) : outcome (Z * nat) :=
  if Z.land (bv data) 128 =? 0 then Ok (size, used) else
  match rest with
  | [] => Err msg
  | d :: rest' =>
      if 64 <=? shift then Err msg else
      varint_loop msg rest' d (S used)
        (u64 (size + Z.shiftl (Z.land (bv d) 127) shift)) (shift + 7)
  end.

(** [readSize]: the size varint, result [(size, used)]. *)
Definition readSize (packfile : list byte) : outcome (Z * nat) :=
  let? data := index packfile 0 in
  varint_loop "bad size" (skipn 1 packfile) data 1 (Z.land (bv data) 127) 7.

(** [readObjectHeader]: result [(size, objectType, used)]. *)
Definition readObjectHeader (packfile : list byte) : outcome (Z * Z * nat) :=
  let? data := index packfile 0 in
  let objectType := Z.land (Z.shiftr (bv data) 4) 7 in
  let? r := varint_loop "bad object header" (skipn 1 packfile) data 1 (Z.land (bv data) 15) 4 in
  Ok (fst r, objectType, snd r).

Definition readUint32BigEndian (b : list byte) : outcome Z :=
  let? b0 := index b 0 in let? b1 := index b 1 in
  let? b2 := index b 2 in let? b3 := index b 3 in
  Ok (Z.lor (Z.lor (Z.shiftl (bv b0) 24) (Z.shiftl (bv b1) 16))
            (Z.lor (Z.shiftl (bv b2) 8) (bv b3))).

Definition verifyPackfile (packfile : list byte) : outcome unit :=
  if (length packfile <? 32)%nat then Err "bad packfile" else
  let checksum := skipn (length packfile - 20) packfile in
  let packfile := firstn (length packfile - 20) packfile in
  if negb (bool_decide (checksum = hash packfile)) then Err "invalid packfile checksum" else
  if negb (bool_decide (firstn 4 packfile = bytes_of "PACK")) then Err "invalid packfile header" else
  let? v := slice packfile 4 8 in
  let? version := readUint32BigEndian v in
  if negb (version =? 2) && negb (version =? 3) then Err "invalid packfile version" else Ok tt.

(* ------------------------------------------------------------------ *)
(** ** Library interfaces *)

(** compress/zlib as the program uses it: [zip] (part_001), [unzip]
    (part_001, [None] on a zlib error) and the inflation of a prefix in
    [readObjectInPackfile], which also reports the input bytes
    consumed. [unzip_spare b] is the unused capacity of the slice [unzip]
    returns for [b] (what the [bytes.Buffer] filled by [io.CopyBuffer]
    has left over), [inflate_spare p] that of the slice [io.ReadAll]
    returns in [readObjectInPackfile p]; both follow from how the
    library grows its buffers, so they are part of the interface. *)
Class Zlib := {
  zip : list byte -> list byte;
  unzip : list byte -> option (list byte);
  inflate : list byte -> option (nat * list byte);
  unzip_spare : list byte -> nat;
  inflate_spare : list byte -> nat
}.

(** The object store: the files under .git/objects, by path. *)
Abbreviation store := (gmap string (list byte)).

(** [bytes.IndexByte] *)
Fixpoint indexByte (s : list byte) (c : byte) : option nat :=
  match s with
  | [] => None
  | x :: r => if bool_decide (x = c) then Some 0%nat else option_map S (indexByte r c)
  end.

Section ObjectStore.
Context `{Zlib}.

(** [splitDirFile] *)
Definition splitDirFile (hex : string) : outcome (string * string) :=
  if (String.length hex <? 2)%nat then Panic "slice bounds out of range"
  else Ok (substring 0 2 hex, substring 2 (String.length hex - 2) hex).

Definition objPath (dir file : string) : string :=
  String.append ".git/objects/" (String.append dir (String.append "/" file)).

(** [readObject] (part_001) *)
Definition readObject (st : store) (object : string) : outcome (list byte) :=
  let? df := splitDirFile object in
  match st !! objPath (fst df) (snd df) with
  | None => Err "error on reading object file"
  | Some b =>
      match unzip b with
      | None => Err "error on unzipping object file"
      | Some objectData => Ok objectData
      end
  end.

(** The unused capacity of the slice [readObject] returns: that of
    [unzip]'s buffer. Slicing it from below, as [openObject] does with
    [objectData[idx+1:]], keeps it. *)
Definition objectSpare (st : store) (object : string) : nat :=
  match splitDirFile object with
  | Ok df => match st !! objPath (fst df) (snd df) with Some b => unzip_spare b | None => 0%nat end
  | _ => 0%nat
  end.

(** [writeObject] (part_001). Creating the fan-out directory and writing
    the file are assumed to succeed. *)
Definition writeObject (st : store) (objectData : list byte) : store * outcome (list byte) :=
  let zippedData := zip objectData in
  let object := hash objectData in
  match splitDirFile (hexDump object) with
  | Ok df => (<[objPath (fst df) (snd df) := zippedData]> st, Ok object)
  | e => (st, fail_as e)
  end.

(** [writeObjectWithType] (clone.go) *)
Definition typedObject (object : list byte) (objectType : string) : list byte :=
  bytes_of objectType ++ [Byte.x20] ++ fmt_d (Z.of_nat (length object)) ++ [Byte.x00] ++ object.

Definition writeObjectWithType (st : store) (object : list byte) (objectType : string)
    : store * outcome (list byte) :=
  writeObject st (typedObject object objectType).

(** [objectExists] (clone.go) *)
Definition objectExists (st : store) (hash : string) : outcome bool :=
  let? df := splitDirFile hash in
  Ok (match st !! objPath (fst df) (snd df) with Some _ => true | None => false end).

(** [openObject] (clone.go): result [(payload, objectType)]. *)
Definition openObject (st : store) (object : string) : outcome (list byte * string) :=
  let? objectData := readObject st object in
  match indexByte objectData Byte.x00 with
  | None => Panic "slice bounds out of range"
  | Some idx =>
      let '(objectType, size) := sscanf_s_d (firstn idx objectData) in
      if negb (Z.of_nat idx + size + 1 =? Z.of_nat (length objectData))
      then Err "bad object size"
      else Ok (skipn (S idx) objectData, objectType)
  end.

(* ------------------------------------------------------------------ *)
(** ** Delta reconstruction: [writeDeltaObject] (clone.go) *)

(** The operand loop [for bit := 0; bit < 7; bit++]. *)
Fixpoint copy_operands (n bit : nat) (opcode : Z) (deltaObject : list byte) (used : nat)
    (argument : Z) : outcome (Z * nat) :=
  match n with
  | O => Ok (argument, used)
  | S n' =>
      if negb (Z.land opcode (Z.shiftl 1 (Z.of_nat bit)) =? 0) then
        let? b := index deltaObject used in
        copy_operands n' (S bit) opcode deltaObject (S used)
          (u64 (argument + Z.shiftl (bv b) (Z.of_nat bit * 8)))
      else copy_operands n' (S bit) opcode deltaObject used argument
  end.

(** The instruction loop [for used < len(deltaObject)]; [buffer] is the
    output written so far, [baseSpare] and [deltaSpare] the unused
    capacities of the two slices, which their [[lo:hi]] slices may reach
    into. *)
Fixpoint delta_loop (fuel : nat) (baseObject : list byte) (baseSpare : nat)
    (deltaObject : list byte) (deltaSpare : nat) (used : nat)
    (buffer : list byte) : outcome (list byte) :=
  if negb (used <? length deltaObject)%nat then Ok buffer else
  match fuel with
  | O => NoFuel
  | S f =>
      let? opcode := index deltaObject used in
      let used := S used in
      if negb (Z.land (bv opcode) 128 =? 0) then
        let? r := copy_operands 7 0 (bv opcode) deltaObject used 0 in
        let argument := fst r in
        let offset := Z.land argument (2 ^ 32 - 1) in
        let size := Z.land (Z.shiftr argument 32) (2 ^ 24 - 1) in
        let size := if size =? 0 then 65536 else size in
        let? chunk := slice_spare baseObject baseSpare (Z.to_nat offset) (Z.to_nat (offset + size)) in
        delta_loop f baseObject baseSpare deltaObject deltaSpare (snd r) (buffer ++ chunk)
      else
        let size := Z.to_nat (Z.land (bv opcode) 127) in
        let? chunk := slice_spare deltaObject deltaSpare used (used + size) in
        delta_loop f baseObject baseSpare deltaObject deltaSpare (used + size) (buffer ++ chunk)
  end.

(** Everything of [writeDeltaObject] before the store is written. *)
Definition undeltify (baseObject : list byte) (baseSpare : nat) (deltaObject : list byte)
    (deltaSpare : nat) : outcome (list byte) :=
  let? r1 := readSize deltaObject in
  let '(baseSize, used) := r1 in
  if negb (Z.of_nat (length baseObject) =? go_int baseSize) then Err "bad delta header" else
  let? rest := slice_from deltaObject used in
  let? r2 := readSize rest in
  let '(expectedSize, read) := r2 in
  let used := (used + read)%nat in
  let? undeltifiedObject :=
    delta_loop (length deltaObject) baseObject baseSpare deltaObject deltaSpare used [] in
  if negb (go_int expectedSize =? Z.of_nat (length undeltifiedObject))
  then Err "bad delta header" else Ok undeltifiedObject.

Definition writeDeltaObject (st : store) (baseObject : list byte) (baseSpare : nat)
    (deltaObject : list byte) (deltaSpare : nat) (objectType : string) : store * outcome unit :=
  match undeltify baseObject baseSpare deltaObject deltaSpare with
  | Ok undeltifiedObject =>
      let '(st', r) := writeObjectWithType st undeltifiedObject objectType in
      (st', let? _ := r in Ok tt)
  | e => (st, fail_as e)
  end.

End ObjectStore.

(* ------------------------------------------------------------------ *)
(** ** Packfile ingestion and delta resolution: [writePackfile] (clone.go) *)

(** [data_spare] is the unused capacity of the slice [data]. *)
Record DeltaObject := { baseObject : string; data : list byte; data_spare : nat }.

Section Packfile.
Context `{Zlib}.

(** [readObjectInPackfile]: result [(bytesRead, object)]. *)
Definition readObjectInPackfile (packfile : list byte) : outcome (nat * list byte) :=
  match inflate packfile with
  | Some r => Ok r
  | None => Err "zlib: invalid stream"
  end.

Definition objectTypeStr (t : Z) : string :=
  if t =? 1 then "commit" else if t =? 2 then "tree" else if t =? 3 then "blob"
  else if t =? 4 then "tag" else "".

(** [packfile] is the pack without its trailer, [full] the whole pack:
    [packfile] is [full[:len(full)-20]], so a slice of [packfile] may
    reach into the trailer (its capacity). *)
Definition slice_cap (full : list byte) (lo hi : nat) : outcome (list byte) := slice full lo hi.

(** One iteration of the object loop; result [(used, deltaObjects)]. *)
Definition readPackObject (st : store) (packfile full : list byte) (used : nat)
    (deltaObjects : list DeltaObject) : store * outcome (nat * list DeltaObject) :=
  match (let? p := slice_from packfile used in readObjectHeader p) with
  | Ok (size, objectType, read) =>
      let used := (used + read)%nat in
      if (objectType =? 1) || (objectType =? 2) || (objectType =? 3) || (objectType =? 4) then
        match (let? p := slice_from packfile used in readObjectInPackfile p) with
        | Ok (read, object) =>
            let used := (used + read)%nat in
            if negb (go_int size =? Z.of_nat (length object))
            then (st, Err "bad object header length") else
            let '(st', r) := writeObjectWithType st object (objectTypeStr objectType) in
            (st', let? _ := r in Ok (used, deltaObjects))
        | e => (st, fail_as e)
        end
      else if objectType =? 6 then
        (st, let? p := slice_from packfile used in
             let? r := readSize p in
             let used := (used + snd r)%nat in
             let? p := slice_from packfile used in
             let? r := readObjectInPackfile p in
             if negb (go_int size =? Z.of_nat (length (snd r)))
             then Err "bad object header length"
             else Err "cant handle ofsdelta object")
      else if objectType =? 7 then
        match slice_cap full used (used + 20) with
        | Ok hash =>
            let used := (used + 20)%nat in
            match slice_from packfile used with
            | Ok p =>
                match readObjectInPackfile p with
                | Ok (read, object) =>
                    let used := (used + read)%nat in
                    if negb (go_int size =? Z.of_nat (length object))
                    then (st, Err "bad object header length")
                    else (st, Ok (used, deltaObjects
                                     ++ [{| baseObject := hexDump hash; data := object;
                                            data_spare := inflate_spare p |}]))
                | e => (st, fail_as e)
                end
            | e => (st, fail_as e)
            end
        | e => (st, fail_as e)
        end
      else (st, Err "invalid object type")
  | e => (st, fail_as e)
  end.

(** The loop [for used < len(packfile)]; result [(objectsRead, deltaObjects)]. *)
Fixpoint readObjects (fuel : nat) (st : store) (packfile full : list byte) (used : nat)
    (objectsRead : Z) (deltaObjects : list DeltaObject)
    : store * outcome (Z * list DeltaObject) :=
  if negb (used <? length packfile)%nat then (st, Ok (objectsRead, deltaObjects)) else
  match fuel with
  | O => (st, NoFuel)
  | S f =>
      let objectsRead := (objectsRead + 1) mod 2 ^ 32 in
      let '(st', r) := readPackObject st packfile full used deltaObjects in
      match r with
      | Ok (used', deltaObjects') => readObjects f st' packfile full used' objectsRead deltaObjects'
      | e => (st', fail_as e)
      end
  end.

(** One pass [for _, delta := range deltaObjects]; result
    [(unaddedDeltaObjects, added)]. *)
Fixpoint resolvePass (st : store) (deltaObjects unadded : list DeltaObject) (added : bool)
    : store * outcome (list DeltaObject * bool) :=
  match deltaObjects with
  | [] => (st, Ok (unadded, added))
  | delta :: rest =>
      match objectExists st (baseObject delta) with
      | Ok true =>
          match openObject st (baseObject delta) with
          | Ok (base, objectType) =>
              let '(st', r) := writeDeltaObject st base (objectSpare st (baseObject delta))
                                 (data delta) (data_spare delta) objectType in
              match r with
              | Ok _ => resolvePass st' rest unadded true
              | e => (st', fail_as e)
              end
          | e => (st, fail_as e)
          end
      | Ok false => resolvePass st rest (unadded ++ [delta]) added
      | e => (st, fail_as e)
      end
  end.

(** A pass as the format describes it: [pass_spec st q st' r] holds when
    the pass over the queue [q], started on the store [st], ends on the
    store [st'] with the residual queue [r]. A delta whose base exists in
    the store is resolved: its base is read (payload and type string), the
    object is reconstructed from it and written with the base's type, and
    the pass goes on in the grown store; a delta whose base is absent is
    kept, in order, in the residual queue. *)
Inductive pass_spec : store -> list DeltaObject -> store -> list DeltaObject -> Prop :=
| pass_nil (st : store) : pass_spec st [] st []
| pass_resolve (st : store) (d : DeltaObject) (q : list DeltaObject) (base : list byte)
    (objectType : string) (out : list byte) (st' : store) (r : list DeltaObject) :
    objectExists st (baseObject d) = Ok true ->
    openObject st (baseObject d) = Ok (base, objectType) ->
    undeltify base (objectSpare st (baseObject d)) (data d) (data_spare d) = Ok out ->
    pass_spec (fst (writeObjectWithType st out objectType)) q st' r ->
    pass_spec st (d :: q) st' r
| pass_carry (st : store) (d : DeltaObject) (q : list DeltaObject) (st' : store)
    (r : list DeltaObject) :
    objectExists st (baseObject d) = Ok false ->
    pass_spec st q st' r ->
    pass_spec st (d :: q) st' (d :: r).

(** The loop [for len(deltaObjects) > 0]. *)
Fixpoint resolveLoop (fuel : nat) (st : store) (deltaObjects : list DeltaObject)
    : store * outcome unit :=
  match deltaObjects with
  | [] => (st, Ok tt)
  | _ =>
      match fuel with
      | O => (st, NoFuel)
      | S f =>
          let '(st', r) := resolvePass st deltaObjects [] false in
          match r with
          | Ok (unadded, added) =>
              if negb added then (st', Err "bad delta objects")
              else resolveLoop f st' unadded
          | e => (st', fail_as e)
          end
      end
  end.

Definition writePackfile (st : store) (packfile : list byte) : store * outcome unit :=
  match verifyPackfile packfile with
  | Ok _ =>
      match (let? p := slice_from packfile 8 in readUint32BigEndian p) with
      | Ok numObjects =>
          let full := packfile in
          let packfile := firstn (length full - 20) full in
          let '(st1, r) := readObjects (length packfile) st packfile full 12 0 [] in
          match r with
          | Ok (objectsRead, deltaObjects) =>
              if negb (numObjects =? objectsRead) then (st1, Err "bad object count")
              else resolveLoop (length deltaObjects) st1 deltaObjects
          | e => (st1, fail_as e)
          end
      | e => (st, fail_as e)
      end
  | e => (st, fail_as e)
  end.

End Packfile.

(* ------------------------------------------------------------------ *)
(** ** Reference discovery and upload-pack: [getPackfile] (clone.go) *)

(** [body_spare] is the unused capacity of the [bytes.Buffer] the body is
    copied into with [io.Copy]; it depends on how the body's reads
    returned. *)
Record response := { statusCode : Z; body : list byte; body_spare : nat }.

(** What [io.Copy] into a [bytes.Buffer] and [Bytes()] make of a
    response's body: its bytes and the buffer's unused capacity. *)
Definition bufferedBody (r : response) : list byte * nat := (body r, body_spare r).

(** net/http as the program uses it: [None] is a transport error, the only
    case in which [http.Get] and [http.Post] return an error. *)
Class Http := {
  http_get : string -> option response;
  http_post : string -> string -> list byte -> option response
}.

(** The loop [for len(discovery) > 0]; [discovery[n:]] keeps the unused
    capacity [spare]. *)
Fixpoint readPktLines (fuel : nat) (discovery : list byte) (spare : nat)
    (pktLines : list (list byte)) : outcome (list (list byte)) :=
  match discovery with
  | [] => Ok pktLines
  | _ =>
      match fuel with
      | O => NoFuel
      | S f =>
          let? r := readPktLine discovery spare in
          let? discovery := slice_from discovery (fst r) in
          readPktLines f discovery spare (pktLines ++ [snd r])
      end
  end.

Definition wantRequest (objectName : string) : list byte :=
  bytes_of (String.append "0032want " objectName) ++ [Byte.x0a]
    ++ bytes_of "00000009done" ++ [Byte.x0a].

Section Transport.
Context `{Http}.

(** Result [(packfile, objectName)]. The pack keeps the unused capacity of
    its buffer, which is dropped here: [writePackfile] slices it only
    within its length (its one [[lo:hi]] slice, the base hash of a
    reference delta, ends inside the checksum). *)
Definition getPackfile (cloneUrl : string) : outcome (list byte * string) :=
  match http_get (String.append cloneUrl "/info/refs?service=git-upload-pack") with
  | None => Err "http: request failed"
  | Some response =>
      let discovery := body response in
      let? pktLines := readPktLines (length discovery) discovery (body_spare response) [] in
      let? objectName := getObjectName pktLines in
      match http_post (String.append cloneUrl "/git-upload-pack")
              "application/x-git-upload-pack-request" (wantRequest objectName) with
      | None => Err "http: request failed"
      | Some response =>
          let packfile := body response in
          let? r := readPktLine packfile (body_spare response) in
          let? packfile := slice_from packfile (fst r) in
          Ok (packfile, objectName)
      end
  end.

End Transport.

(* ------------------------------------------------------------------ *)
(** ** Trees (part_001) and checkout (clone.go) *)

Record TreeEntry := { te_hash : list byte; te_name : string; te_mode : string }.

(** [bytes.Cut(s, " ")] *)
Definition cut_space (s : list byte) : option (list byte * list byte) :=
  match indexByte s Byte.x20 with
  | Some i => Some (firstn i s, skipn (S i) s)
  | None => None
  end.

(** [parseTreeEntry] on a slice [b] with [spare] bytes of unused
    capacity: result [(entry, skipN)]. *)
Definition parseTreeEntry (b : list byte) (spare : nat) : outcome (TreeEntry * nat) :=
  match indexByte b Byte.x00 with
  | None => Err "cannot parse tree entry"
  | Some i =>
      match cut_space (firstn i b) with
      | None => Err "cannot parse tree entry"
      | Some (mode, name) =>
          let? hash := slice_spare b spare (S i) (i + 21) in
          Ok ({| te_hash := hash; te_name := string_of name; te_mode := string_of mode |},
              (i + 21)%nat)
      end
  end.

Fixpoint parseTree_loop (fuel : nat) (b : list byte) (spare : nat) (offset : nat)
    (entries : list TreeEntry) : outcome (list TreeEntry) :=
  if negb (offset <? length b)%nat then Ok entries else
  match fuel with
  | O => NoFuel
  | S f =>
      match (let? p := slice_from b offset in parseTreeEntry p spare) with
      | Ok (entry, skipN) => parseTree_loop f b spare (offset + skipN) (entries ++ [entry])
      | Err m => Err (String.append "cannot parse tree: " m)
      | e => fail_as e
      end
  end.

(** [parseTree] on a slice [b] with [spare] bytes of unused capacity
    ([b[offset:]] keeps them): entries start after the first NUL
    ([IndexByte] = -1 gives offset 0). *)
Definition parseTree (b : list byte) (spare : nat) : outcome (list TreeEntry) :=
  let offset := match indexByte b Byte.x00 with Some i => S i | None => 0%nat end in
  parseTree_loop (length b) b spare offset [].

(** The working tree, as [os.MkdirAll], [os.WriteFile] and [os.Chdir] act
    on it; [None] or [false] is a returned error. *)
Class Worktree := {
  wt : Type;
  mkdirAll : wt -> string -> Z -> option wt;
  writeFile : wt -> string -> list byte -> Z -> wt * bool;
  chdir : wt -> string -> option wt
}.

Section Checkout.
Context `{Zlib} `{Worktree}.

Definition readTree (st : store) (object : string) : outcome (list TreeEntry) :=
  let? treeData := readObject st object in
  parseTree treeData (objectSpare st object).

(** The body of [for _, entry := range entries] in [checkoutTree];
    [checkoutTree'] is the recursive call. *)
Definition checkoutEntry (checkoutTree' : wt -> string -> string -> wt * outcome unit)
    (w : wt) (st : store) (dir : string) (entry : TreeEntry) : wt * outcome unit :=
  let hashStr := hexDump (te_hash entry) in
  let fullPath := String.append dir (String.append "/" (te_name entry)) in
  if String.eqb (te_mode entry) "40000" then checkoutTree' w hashStr fullPath
  else if String.eqb (te_mode entry) "100644" || String.eqb (te_mode entry) "100755" then
    match openObject st hashStr with
    | Ok (blob, objectType) =>
        if negb (String.eqb objectType "blob") then (w, Err "object not a blob")
        else (fst (writeFile w fullPath blob 420), Ok tt)
    | e => (w, fail_as e)
    end
  else (w, Ok tt).

(** The loop [for _, entry := range entries], stopping at the first
    error. *)
Fixpoint checkoutEntries (checkoutTree' : wt -> string -> string -> wt * outcome unit)
    (w : wt) (st : store) (dir : string) (entries : list TreeEntry) : wt * outcome unit :=
  match entries with
  | [] => (w, Ok tt)
  | entry :: rest =>
      let '(w', r) := checkoutEntry checkoutTree' w st dir entry in
      match r with
      | Ok _ => checkoutEntries checkoutTree' w' st dir rest
      | e => (w', e)
      end
  end.

(** [checkoutTree]; [fuel] bounds the depth of the recursion. *)
Fixpoint checkoutTree (fuel : nat) (w : wt) (st : store) (tree dir : string)
    : wt * outcome unit :=
  match fuel with
  | O => (w, NoFuel)
  | S f =>
      match mkdirAll w dir 493 with
      | None => (w, Err "mkdir failed")
      | Some w =>
          match readTree st tree with
          | Ok entries => checkoutEntries (fun w t d => checkoutTree f w st t d) w st dir entries
          | e => (w, fail_as e)
          end
      end
  end.

Definition checkoutCommit (fuel : nat) (w : wt) (st : store) (commitHash : string)
    : wt * outcome unit :=
  match openObject st commitHash with
  | Ok (commit, objectType) =>
      if negb (String.eqb objectType "commit") then (w, Err "object not a commit") else
      match slice_spare commit (objectSpare st commitHash) 5 45 with
      | Ok treeHash => checkoutTree fuel w st (string_of treeHash) "."
      | e => (w, fail_as e)
      end
  | e => (w, fail_as e)
  end.

(** [Init] (init.go) *)
Definition Init (w : wt) : outcome wt :=
  match mkdirAll w ".git" 493 with
  | None => Err "error creating directory"
  | Some w =>
      match mkdirAll w ".git/objects" 493 with
      | None => Err "error creating directory"
      | Some w =>
          match mkdirAll w ".git/refs" 493 with
          | None => Err "error creating directory"
          | Some w =>
              let '(w, ok) := writeFile w ".git/HEAD"
                                (bytes_of "ref: refs/heads/main" ++ [Byte.x0a]) 420 in
              if ok then Ok w else Err "error writing file"
          end
      end
  end.

End Checkout.

Section Clone.
Context `{Zlib} `{Http} `{Worktree}.

(** [Clone]; [fuel] bounds the depth of the checkout. *)
Definition Clone (fuel : nat) (w : wt) (st : store) (remoteRepo dir : string)
    : wt * store * outcome unit :=
  match mkdirAll w dir 493 with
  | None => (w, st, Err "error on creating target dir")
  | Some w =>
      match chdir w dir with
      | None => (w, st, Err "chdir failed")
      | Some w =>
          match Init w with
          | Ok w =>
              match getPackfile remoteRepo with
              | Ok (packfile, commit) =>
                  let '(st, r) := writePackfile st packfile in
                  match r with
                  | Ok _ => let '(w, r) := checkoutCommit fuel w st commit in (w, st, r)
                  | e => (w, st, fail_as e)
                  end
              | e => (w, st, fail_as e)
              end
          | e => (w, st, fail_as e)
          end
      end
  end.

End Clone.

(* ------------------------------------------------------------------ *)
(** ** Blobs, trees and commits (part_001) *)

Section Objects.
Context `{Zlib}.

(** [parseBlobContent]: what follows the first NUL. *)
Definition parseBlobContent (b : list byte) : outcome string :=
  match indexByte b Byte.x00 with
  | None => Err "cannot extract blob content"
  | Some i => Ok (string_of (skipn (S i) b))
  end.

(** [readBlobContent] *)
Definition readBlobContent (st : store) (object : string) : outcome string :=
  let? blob := readObject st object in
  match parseBlobContent blob with
  | Err m => Err (String.append "error on extracting blob file: " m)
  | r => r
  end.

(** [blobObject]: the header "blob %d\x00", then the content. *)
Definition blobObject (b : list byte) : list byte :=
  bytes_of "blob " ++ fmt_d (Z.of_nat (length b)) ++ [Byte.x00] ++ b.

(** The method [Bytes] of [*TreeEntry]. *)
Definition TreeEntry_Bytes (t : TreeEntry) : list byte :=
  bytes_of (te_mode t) ++ [Byte.x20] ++ bytes_of (te_name t) ++ [Byte.x00] ++ te_hash t.

Definition TreeEntryModeBlob : string := "100644".
Definition TreeEntryModeTree : string := "40000".

Record User := { user_name : string; user_email : string }.

Record Commit := {
  treeObject : string;
  parentObject : string;
  author : User;
  committer : User;
  message : string
}.

Definition user_line (field : string) (u : User) : list byte :=
  bytes_of (String.append field (String.append " "
    (String.append (user_name u) (String.append " " (user_email u))))) ++ [Byte.x0a].

(** The method [Bytes] of [*Commit]. *)
Definition Commit_Bytes (c : Commit) : list byte :=
  let buf :=
    bytes_of (String.append "tree " (treeObject c)) ++ [Byte.x0a]
    ++ (if String.eqb (parentObject c) "" then []
        else bytes_of (String.append "parent " (parentObject c)) ++ [Byte.x0a])
    ++ user_line "author" (author c)
    ++ user_line "committer" (committer c)
    ++ [Byte.x0a] ++ bytes_of (message c) ++ [Byte.x0a] in
  bytes_of "commit " ++ fmt_d (Z.of_nat (length buf)) ++ [Byte.x00] ++ buf.

(** [writeCommit] *)
Definition writeCommit (st : store) (commit : Commit) : store * outcome (list byte) :=
  writeObject st (Commit_Bytes commit).

End Objects.

(** A directory entry as [os.ReadDir] returns it. *)
Record DirEntry := { de_name : string; de_isDir : bool }.

(** The files the program reads: [os.ReadDir] ([None] on an error) and
    [os.ReadFile]. *)
Class Fs := {
  readDir : string -> option (list DirEntry);
  readFile : string -> option (list byte)
}.

(** [filepath.Join(dir, name)] for a clean [dir] and the name of a
    directory entry (one path element, neither "." nor ".."), as in all
    of its calls. *)
Definition join (dir name : string) : string :=
  if String.eqb dir "." then name else String.append dir (String.append "/" name).

(** [a < b] on Go strings: byte-wise lexicographic. *)
Definition string_lt (a b : string) : bool :=
  match String.compare a b with Lt => true | _ => false end.

(** [sort.SliceStable] by name: every stable sort gives the same list;
    this one inserts each entry after the entries not greater than it. *)
Fixpoint insert_by_name (e : TreeEntry) (l : list TreeEntry) : list TreeEntry :=
  match l with
  | [] => [e]
  | x :: r => if string_lt (te_name e) (te_name x) then e :: l else x :: insert_by_name e r
  end.

Definition sortByName (l : list TreeEntry) : list TreeEntry :=
  fold_left (fun acc e => insert_by_name e acc) l [].

Section WriteTree.
Context `{Zlib} `{Fs}.

(** [writeBlob]: [os.Exit(1)] after the message ends the program as an
    unrecovered panic does; it is written [Panic]. *)
Definition writeBlob (st : store) (filePath : string) : store * outcome (list byte) :=
  match readFile filePath with
  | None => (st, Panic "os.Exit(1)")
  | Some content => writeObject st (blobObject content)
  end.

(** The first loop of [writeTree]: the subdirectories other than .git;
    [writeTree'] is the recursive call. *)
Fixpoint writeTree_dirs (writeTree' : store -> string -> store * outcome (list byte))
    (st : store) (dir : string) (dirEntries : list DirEntry) (treeEntires : list TreeEntry)
    : store * outcome (list TreeEntry) :=
  match dirEntries with
  | [] => (st, Ok treeEntires)
  | dirEntry :: rest =>
      if String.eqb (join dir (de_name dirEntry)) ".git" || negb (de_isDir dirEntry)
      then writeTree_dirs writeTree' st dir rest treeEntires
      else
        let '(st', r) := writeTree' st (join dir (de_name dirEntry)) in
        match r with
        | Ok object =>
            writeTree_dirs writeTree' st' dir rest
              (treeEntires ++ [{| te_hash := object; te_name := de_name dirEntry;
                                  te_mode := TreeEntryModeTree |}])
        | e => (st', fail_as e)
        end
  end.

(** The second loop of [writeTree]: the other entries, as blobs. *)
Fixpoint writeTree_files (st : store) (dir : string) (dirEntries : list DirEntry)
    (treeEntires : list TreeEntry) : store * outcome (list TreeEntry) :=
  match dirEntries with
  | [] => (st, Ok treeEntires)
  | dirEntry :: rest =>
      if de_isDir dirEntry then writeTree_files st dir rest treeEntires else
      let '(st', r) := writeBlob st (join dir (de_name dirEntry)) in
      match r with
      | Ok object =>
          writeTree_files st' dir rest
            (treeEntires ++ [{| te_hash := object; te_name := de_name dirEntry;
                                te_mode := TreeEntryModeBlob |}])
      | e => (st', fail_as e)
      end
  end.

(** The tree object of a list of entries. *)
Definition treeData (treeEntires : list TreeEntry) : list byte :=
  let buf := concat (map TreeEntry_Bytes (sortByName treeEntires)) in
  bytes_of "tree " ++ fmt_d (Z.of_nat (length buf)) ++ [Byte.x00] ++ buf.

(** [writeTree]; [fuel] bounds the depth of the recursion. *)
Fixpoint writeTree (fuel : nat) (st : store) (dir : string) : store * outcome (list byte) :=
  match fuel with
  | O => (st, NoFuel)
  | S f =>
      match readDir dir with
      | None => (st, Err "readdir failed")
      | Some dirEntries =>
          let '(st1, r1) := writeTree_dirs (fun st d => writeTree f st d) st dir dirEntries [] in
          match r1 with
          | Ok treeEntires =>
              let '(st2, r2) := writeTree_files st1 dir dirEntries treeEntires in
              match r2 with
              | Ok treeEntires => writeObject st2 (treeData treeEntires)
              | e => (st2, fail_as e)
              end
          | e => (st1, fail_as e)
          end
      end
  end.

End WriteTree.

(** The flag loop of "commit-tree" (the [main] of src/unnamed/part_000) on [os.Args[i:]]: the loop
    test [i < len(os.Args)-1] holds exactly when two arguments are left.
    Result [(parent, message)]. *)
Fixpoint commitTreeFlags (rest : list string) (parent message : string) : string * string :=
  match rest with
  | flag :: value :: rest' =>
      let '(parent, message) :=
        if String.eqb flag "-p" then (value, message)
        else if String.eqb flag "-m" then (parent, value)
        else (parent, message) in
      commitTreeFlags rest' parent message
  | _ => (parent, message)
  end.

Definition scott : User := {| user_name := "Scott Chacon"; user_email := "schacon@gmail.com" |}.

(** The commit "commit-tree" builds from [os.Args]. *)
Definition commitTreeCommit (args : list string) : outcome Commit :=
  match args with
  | _ :: _ :: tree :: rest =>
      let '(parent, message) := commitTreeFlags rest "" "" in
      Ok {| treeObject := tree; parentObject := parent; author := scott; committer := scott;
            message := message |}
  | _ => Err "git commit-tree <tree-SHA1> -p <commit-SHA1> -m <message>"
  end.

(* ------------------------------------------------------------------ *)
(** ** Definitions taken from the specification *)

(** Pkt-line framing (spec 4.5): the total length [|p|+4] as four
    lowercase hex digits followed by [p]; the empty payload frames as the
    flush packet "0000". *)
Definition pkt_frame (p : list byte) : list byte :=
  match p with
  | [] => bytes_of "0000"
  | _ =>
      let n := Z.of_nat (length p) + 4 in
      [hexdig (n / 4096 mod 16); hexdig (n / 256 mod 16); hexdig (n / 16 mod 16);
       hexdig (n mod 16)] ++ p
  end.

(** The payload with one trailing newline removed, if it has one. *)
Definition strip_newline (p : list byte) : list byte :=
  match rev p with
  | x :: r => if bv x =? 10 then rev r else p
  | [] => p
  end.

(** Delta reconstruction (spec 4.9). The stream after the two size
    varints is a sequence of instructions; a copy takes the operand bytes
    selected by bits 0-3 (offset) and 4-6 (size) of its opcode, composed
    little-endian, with a size of zero standing for 0x10000; an insert
    takes the next [op & 0x7F] bytes. The size varints are read with
    [readSize], the reader of that shape (4.7). *)
Inductive delta_instr := Copy (offset size : Z) | Insert (literal : list byte).

(** The components selected by [sel], least significant first; an
    unselected component is zero. *)
Fixpoint le_operand (sel : list bool) (s : list byte) : option (Z * list byte) :=
  match sel with
  | [] => Some (0, s)
  | true :: sel' =>
      match s with
      | x :: s' => option_map (fun r => (bv x + 256 * fst r, snd r)) (le_operand sel' s')
      | [] => None
      end
  | false :: sel' => option_map (fun r => (256 * fst r, snd r)) (le_operand sel' s)
  end.

Definition opbits (op : byte) (bits : list Z) : list bool := map (Z.testbit (bv op)) bits.

Fixpoint delta_instrs (fuel : nat) (s : list byte) : option (list delta_instr) :=
  match s with
  | [] => Some []
  | op :: s' =>
      match fuel with
      | O => None
      | S f =>
          if Z.testbit (bv op) 7 then
            match le_operand (opbits op [0; 1; 2; 3]) s' with
            | Some (offset, s1) =>
                match le_operand (opbits op [4; 5; 6]) s1 with
                | Some (size, s2) =>
                    option_map (cons (Copy offset (if size =? 0 then 65536 else size)))
                      (delta_instrs f s2)
                | None => None
                end
            | None => None
            end
          else
            let n := Z.to_nat (Z.land (bv op) 127) in
            if (n <=? length s')%nat
            then option_map (cons (Insert (firstn n s'))) (delta_instrs f (skipn n s'))
            else None
      end
  end.




(** A failure of the Go code: a returned error or a runtime panic. *)
Definition go_failure {A} (o : outcome A) : Prop :=
  match o with Err _ | Panic _ => True | _ => False end.

(* ------------------------------------------------------------------ *)
(** ** A concrete compressor for sample runs *)

(** Stored data is kept as is, a compressed stream is a length byte
    followed by that many bytes, and every buffer has 512 bytes of unused
    capacity. *)
#[global] Instance toy_zlib : Zlib := {
  zip := fun b => b;
  unzip := fun b => Some b;
  unzip_spare := fun _ => 512%nat;
  inflate_spare := fun _ => 512%nat;
  inflate := fun s =>
    match s with
    | n :: r =>
        let k := Z.to_nat (bv n) in
        if (k <=? length r)%nat then Some (S k, firstn k r) else None
    | [] => None
    end
}.

(** The instructions of a delta stream, after its two size varints. *)
Definition delta_instructions (D : list byte) : option (list delta_instr) :=
  match readSize D with
  | Ok (_, used) =>
      match readSize (skipn used D) with
      | Ok (_, read) => let s := skipn (used + read) D in delta_instrs (length s) s
      | _ => None
      end
  | _ => None
  end.

(** The unsigned big-endian value of a byte string. *)
Definition be_value (b : list byte) : Z := fold_left (fun acc x => acc * 256 + bv x) b 0.

(** A working tree that records the files written, and a server that
    answers every GET and every POST with a fixed response. *)
#[global] Instance toy_worktree : Worktree := {
  wt := list (string * list byte);
  mkdirAll := fun w _ _ => Some w;
  writeFile := fun w p b _ => (w ++ [(p, b)], true);
  chdir := fun w _ => Some w
}.

Definition http_of (get post : option response) : Http :=
  {| http_get := fun _ => get; http_post := fun _ _ _ => post |}.

(** The smallest well-formed pack: version 2, no objects, and its
    checksum. *)
Definition empty_pack_body : list byte :=
  bytes_of "PACK" ++ [Byte.x00; Byte.x00; Byte.x00; Byte.x02; Byte.x00; Byte.x00; Byte.x00; Byte.x00].

Definition empty_pack : list byte := empty_pack_body ++ hash empty_pack_body.

(** A store holding the blob "hello world", and two reference deltas: [d1]
    on that blob yields "hello", [d2] on the blob "hello" yields "he"; in
    the queue [[d2; d1]] the base of [d2] only appears once [d1] is
    resolved. *)
Definition sample_store : store := fst (writeObjectWithType ∅ (bytes_of "hello world") "blob").

Definition sample_d1 : DeltaObject :=
  {| baseObject := hexDump (hash (typedObject (bytes_of "hello world") "blob"));
     data := [Byte.x0b; Byte.x05; Byte.x90; Byte.x05]; data_spare := 508 |}.

Definition sample_d2 : DeltaObject :=
  {| baseObject := hexDump (hash (typedObject (bytes_of "hello") "blob"));
     data := [Byte.x05; Byte.x02; Byte.x90; Byte.x02]; data_spare := 508 |}.

(** Reference advertisements, as [getPackfile] hands them to
    [getObjectName] (payloads, trailing newlines removed): the service
    line, a flush, the refs and a flush. In [advert_caps] the first ref
    carries the capability list after a NUL, as servers send it. *)
Definition sample_hex : string := "ce013625030ba8dba906f756967f9e9ca394464a".

Definition master_ref : list byte := bytes_of (String.append sample_hex " refs/heads/master").

Definition advert (refs : list (list byte)) : list (list byte) :=
  [bytes_of "# service=git-upload-pack"; []] ++ refs ++ [[]].

Definition advert_caps : list (list byte) :=
  advert [master_ref ++ [Byte.x00] ++ bytes_of "multi_ack thin-pack side-band ofs-delta"].

(** The body of a reference discovery answer advertising [master_ref],
    and of an upload-pack answer: a NAK line, then [empty_pack]. *)
Definition discovery_body : list byte :=
  pkt_frame (bytes_of "# service=git-upload-pack" ++ [Byte.x0a]) ++ bytes_of "0000"
    ++ pkt_frame (master_ref ++ [Byte.x0a]) ++ bytes_of "0000".

Definition upload_body : list byte := pkt_frame (bytes_of "NAK" ++ [Byte.x0a]) ++ empty_pack.

(** A stored blob whose header declares a size beyond the int64 range,
    with an empty payload. *)
Definition overflow_object : list byte :=
  bytes_of "blob 99999999999999999999" ++ [Byte.x00].

Definition overflow_store : store := fst (writeObject ∅ overflow_object).

(** A tree with a regular file "hello.txt" (the "hello world" blob), a
    symbolic link (mode 120000) and a submodule (mode 160000). *)
Definition sample_tree_body : list byte :=
  bytes_of "100644 hello.txt" ++ [Byte.x00] ++ hash (typedObject (bytes_of "hello world") "blob")
  ++ bytes_of "120000 link" ++ [Byte.x00] ++ repeat Byte.x11 20
  ++ bytes_of "160000 module" ++ [Byte.x00] ++ repeat Byte.x22 20.

Definition sample_tree_store : store :=
  fst (writeObjectWithType sample_store sample_tree_body "tree").

Definition sample_tree : string := hexDump (hash (typedObject sample_tree_body "tree")).

(** The modes [checkoutTree] acts on: a directory, a regular file and an
    executable file. *)
Definition known_mode (e : TreeEntry) : bool :=
  String.eqb (te_mode e) "40000" || String.eqb (te_mode e) "100644"
  || String.eqb (te_mode e) "100755".

(** A tree entry [parseTreeEntry] reads back: a mode without space or
    NUL, a name without NUL and a 20-byte hash. *)
Definition tree_entry_ok (e : TreeEntry) : Prop :=
  Forall (fun c => c <> Byte.x20 /\ c <> Byte.x00) (bytes_of (te_mode e)) /\
  Forall (fun c => c <> Byte.x00) (bytes_of (te_name e)) /\
  length (te_hash e) = 20%nat.

(** [a <= b] on the names of two tree entries. *)
Definition name_le (a b : TreeEntry) : Prop := string_lt (te_name b) (te_name a) = false.

(** A directory entry whose name has no NUL byte. *)
Definition name_no_nul (de : DirEntry) : Prop := Forall (fun c => c <> Byte.x00) (bytes_of (de_name de)).

(** A file tree given by the listing of each directory and the content
    of each file. *)
Fixpoint lookup_assoc {A : Type} (k : string) (l : list (string * A)) : option A :=
  match l with
  | [] => None
  | (k', v) :: r => if String.eqb k k' then Some v else lookup_assoc k r
  end.

Definition fs_of (dirs : list (string * list DirEntry)) (files : list (string * list byte)) : Fs := {|
  readDir := fun d => lookup_assoc d dirs;
  readFile := fun p => lookup_assoc p files
|}.

Definition sample_root : list DirEntry :=
  [ {| de_name := ".git"; de_isDir := true |}; {| de_name := "b.txt"; de_isDir := false |};
    {| de_name := "sub"; de_isDir := true |}; {| de_name := "a.txt"; de_isDir := false |} ].

Definition sample_fs : Fs :=
  fs_of [(".", sample_root); ("sub", [ {| de_name := "c"; de_isDir := false |} ]); (".git", [])]
        [("b.txt", bytes_of "bee"); ("a.txt", bytes_of "ay"); ("sub/c", bytes_of "sea")].

Definition sample_tree_hash : list byte :=
  Eval vm_compute in
  match snd (@writeTree toy_zlib sample_fs 3 ∅ ".") with Ok h => h | _ => [] end.

(** The value of the last pair whose flag is [f], [d] if there is none. *)
Definition last_value (f : string) (pairs : list (string * string)) (d : string) : string :=
  fold_left (fun acc fv => if String.eqb (fst fv) f then snd fv else acc) pairs d.

Definition sample_entry : TreeEntry :=
  {| te_hash := repeat Byte.x11 20; te_name := "a b"; te_mode := TreeEntryModeBlob |}.

(** The varint of git's pack format: 7-bit groups, least significant
    first, bit 7 set on every byte but the last. *)
Fixpoint varint_bytes (fuel : nat) (n : Z) : list byte :=
  match fuel with
  | O => []
  | S f => if n <? 128 then [zb n] else zb (128 + n mod 128) :: varint_bytes f (n / 128)
  end.

(** The header of an object of a pack: the type in bits 4-6 and the low
    four bits of the size in the first byte, bit 7 set when the rest of
    the size follows as a varint. *)
Definition pack_object_header (t n : Z) : list byte :=
  if n <? 16 then [zb (t * 16 + n)] else zb (128 + t * 16 + n mod 16) :: varint_bytes 10 (n / 16).

(** An object of a pack with its zlib stream [pe_zdata], and a pack in
    git's format: "PACK", the version and the object count as 32-bit
    big-endian numbers, the objects, and the SHA-1 of all that. *)
Record PackEntry := { pe_type : Z; pe_body : list byte; pe_zdata : list byte }.

Definition pack_entry_bytes (e : PackEntry) : list byte :=
  pack_object_header (pe_type e) (Z.of_nat (length (pe_body e))) ++ pe_zdata e.

Definition be32 (z : Z) : list byte := [zb (z / 2 ^ 24); zb (z / 2 ^ 16); zb (z / 2 ^ 8); zb z].

Definition pack_body (version : Z) (es : list PackEntry) : list byte :=
  bytes_of "PACK" ++ be32 version ++ be32 (Z.of_nat (length es)) ++ concat (map pack_entry_bytes es).

Definition pack_of (version : Z) (es : list PackEntry) : list byte :=
  pack_body version es ++ hash (pack_body version es).

(** A full object of a pack that [writePackfile] accepts: a commit, tree,
    blob or tag whose zlib stream inflates to its body, whatever follows. *)
Definition entry_ok `{Zlib} (e : PackEntry) : Prop :=
  1 <= pe_type e <= 4 /\ Z.of_nat (length (pe_body e)) < 2 ^ 63 /\
  forall rest, inflate (pe_zdata e ++ rest) = Some (length (pe_zdata e), pe_body e).

(** The store after writing each object with [writeObjectWithType], in order. *)
Definition write_objects `{Zlib} (st : store) (es : list PackEntry) : store :=
  fold_left (fun st e => fst (writeObjectWithType st (pe_body e) (objectTypeStr (pe_type e)))) es st.

Definition sample_pack_entries : list PackEntry :=
  [ {| pe_type := 3; pe_body := bytes_of "hi"; pe_zdata := Byte.x02 :: bytes_of "hi" |};
    {| pe_type := 1; pe_body := bytes_of "tree x"; pe_zdata := Byte.x06 :: bytes_of "tree x" |} ].

(* ================================================================== *)
(** * Theorems *)

Lemma fromHexChar_hexdig (d : Z) : 0 <= d < 16 -> fromHexChar (hexdig d) = Some d.
Proof.
  intros Hd.
  assert (d = 0 \/ d = 1 \/ d = 2 \/ d = 3 \/ d = 4 \/ d = 5 \/ d = 6 \/ d = 7 \/
          d = 8 \/ d = 9 \/ d = 10 \/ d = 11 \/ d = 12 \/ d = 13 \/ d = 14 \/ d = 15)
    as Hc by lia.
  repeat destruct Hc as [-> | Hc]; try reflexivity; subst; reflexivity.
Qed.

Lemma hex4_value (n : Z) : 0 <= n < 65536 ->
  (n / 4096 mod 16 * 16 + n / 256 mod 16) * 256 + (n / 16 mod 16 * 16 + n mod 16) = n.
Proof.
  intros Hn.
  assert (E1 : n / 256 = n / 16 / 16) by (rewrite Z.div_div by lia; reflexivity).
  assert (E2 : n / 4096 = n / 256 / 16) by (rewrite Z.div_div by lia; reflexivity).
  pose proof (Z.div_mod n 16 ltac:(lia)) as D1.
  pose proof (Z.div_mod (n / 16) 16 ltac:(lia)) as D2.
  pose proof (Z.div_mod (n / 256) 16 ltac:(lia)) as D3.
  rewrite <- E1 in D2. rewrite <- E2 in D3.
  assert (Ha : n / 4096 mod 16 = n / 4096).
  { apply Z.mod_small. split; [apply Z.div_pos; lia | apply Z.div_lt_upper_bound; lia]. }
  rewrite Ha. lia.
Qed.

Lemma slice_prefix (p rest : list byte) :
  slice (p ++ rest) 0 (length p) = Ok p.
Proof.
  unfold slice. rewrite length_app. simpl.
  replace (length p <=? length p + length rest)%nat with true by (symmetry; apply Nat.leb_le; lia).
  rewrite Nat.sub_0_r, drop_0. f_equal. apply take_app_length.
Qed.

Lemma readPktLine_pkt_frame (p rest : list byte) (spare : nat) :
  Z.of_nat (length p) <= 65516 ->
  readPktLine (pkt_frame p ++ rest) spare =
    match p with
    | [] => Ok (4%nat, [])
    | _ => Ok ((length p + 4)%nat, strip_newline p)
    end.
Proof.
  intros Hlen. destruct p as [| b0 p0] eqn:Ep; [reflexivity |].
  rewrite <- Ep. assert (Hne : p <> []) by (subst; discriminate).
  set (n := Z.of_nat (length p) + 4).
  assert (Hn : 5 <= n <= 65520) by (subst n; rewrite Ep in *; simpl length in *; lia).
  assert (Hframe : pkt_frame p = [hexdig (n / 4096 mod 16); hexdig (n / 256 mod 16);
                     hexdig (n / 16 mod 16); hexdig (n mod 16)] ++ p)
    by (subst n; rewrite Ep; reflexivity).
  rewrite Hframe. unfold readPktLine, slice_spare, slice_from. simpl.
  rewrite !fromHexChar_hexdig by (apply Z.mod_pos_bound; lia). simpl.
  rewrite hex4_value by lia.
  replace (n =? 0) with false by (symmetry; apply Z.eqb_neq; lia).
  rewrite drop_0, length_app.
  replace (Z.of_nat (length p + length rest) <? n - 4) with false
    by (symmetry; apply Z.ltb_ge; subst n; lia).
  replace (Z.to_nat ((n - 4) mod 2 ^ 16)) with (length p)
    by (subst n; rewrite Z.mod_small by lia; lia).
  rewrite <- !app_assoc, slice_prefix. simpl.
  destruct (exists_last Hne) as (l & x & Hlx).
  assert (Hidx : index p (length p - 1) = Ok x).
  { unfold index. rewrite Hlx, length_app. simpl.
    rewrite nth_error_app2 by lia. now replace (length l + 1 - 1 - length l)%nat with 0%nat by lia. }
  rewrite Hidx. simpl.
  replace (Nat.eqb (length p) 0) with false
    by (symmetry; apply Nat.eqb_neq; rewrite Hlx, length_app; simpl; lia).
  replace (Z.to_nat n) with (length p + 4)%nat by (subst n; lia).
  unfold strip_newline. rewrite Hlx, rev_app_distr. simpl. rewrite rev_involutive.
  destruct (bv x =? 10); [| reflexivity].
  rewrite length_app. simpl. rewrite Nat.add_sub, firstn_app, Nat.sub_diag, firstn_all.
  simpl. now rewrite app_nil_r.
Qed.

(** C7 (counterexample): a payload ending in a newline does not come back
    unchanged: the frame of the one-byte payload "\n" parses to the empty
    payload. *)
Lemma readPktLine_frame_newline :
  ~ (forall (p : list byte) (spare : nat), 1 <= Z.of_nat (length p) <= 65516 ->
       readPktLine (pkt_frame p) spare = Ok (length p + 4, p)%nat).
Proof.
  intros Hall. specialize (Hall [Byte.x0a] 512%nat ltac:(simpl; lia)).
  vm_compute in Hall. discriminate Hall.
Qed.

(** C7 (amended): for a payload [p] with [1 <= |p| <= 65516], parsing
    its frame, followed by any further bytes and whatever the unused
    capacity of the slice, consumes [|p|+4] bytes and
    returns [p] without its trailing newline if it has one (otherwise [p]
    itself); the flush packet "0000" parses as 4 bytes with an empty
    payload. *)
Theorem readPktLine_frame (p rest : list byte) (spare : nat) :
  Z.of_nat (length p) <= 65516 ->
  readPktLine (pkt_frame p ++ rest) spare =
    match p with
    | [] => Ok (4%nat, [])
    | _ => Ok ((length p + 4)%nat, strip_newline p)
    end.
Proof. intros Hlen. exact (readPktLine_pkt_frame p rest spare Hlen). Qed.

(* ------------------------------------------------------------------ *)
(** ** Bytes, bits and slices *)

Lemma bv_bound (b : byte) : 0 <= bv b < 256.
Proof. unfold bv. pose proof (Byte.to_N_bounded b). lia. Qed.

Lemma land128_testbit (b : byte) : (Z.land (bv b) 128 =? 0) = negb (Z.testbit (bv b) 7).
Proof. destruct b; reflexivity. Qed.




(* ------------------------------------------------------------------ *)
(** ** Operands of a copy instruction *)





(* ------------------------------------------------------------------ *)
(** ** The delta instruction loop against the instruction semantics *)




Lemma slice_app_ok (s t : list byte) (lo hi : nat) (x : list byte) :
  slice s lo hi = Ok x -> slice (s ++ t) lo hi = Ok x.
Proof.
  unfold slice. rewrite length_app.
  destruct ((lo <=? hi)%nat && (hi <=? length s)%nat) eqn:E; [| discriminate].
  apply andb_prop in E as [E1 E2]. apply Nat.leb_le in E1, E2.
  replace ((lo <=? hi)%nat && (hi <=? length s + length t)%nat) with true
    by (symmetry; apply andb_true_intro; split; apply Nat.leb_le; lia).
  intros Hx. rewrite <- Hx. f_equal.
  rewrite skipn_app, firstn_app. rewrite length_skipn.
  replace (hi - lo - (length s - lo))%nat with 0%nat by lia. cbn [firstn]. apply app_nil_r.
Qed.

(** A slice within the length does not depend on the unused capacity. *)
Lemma slice_spare_ok (s : list byte) (spare : nat) (lo hi : nat) (x : list byte) :
  slice_spare s 0 lo hi = Ok x -> slice_spare s spare lo hi = Ok x.
Proof.
  unfold slice_spare. cbn [repeat]. rewrite app_nil_r. apply slice_app_ok.
Qed.


(* ------------------------------------------------------------------ *)
(** ** Size varints and object names *)

Lemma varint_loop_ok (msg : string) (rest : list byte) (d : byte) (used : nat) (size shift : Z)
    (v : Z) (u : nat) :
  0 <= size < 2 ^ 64 -> varint_loop msg rest d used size shift = Ok (v, u) ->
  0 <= v < 2 ^ 64 /\ (u <= used + length rest)%nat.
Proof.
  revert d used size shift. induction rest as [| d' rest IH]; intros d used size shift Hs H0;
    cbn [varint_loop] in H0.
  - destruct (Z.land (bv d) 128 =? 0); [injection H0 as <- <-; simpl; lia | discriminate].
  - destruct (Z.land (bv d) 128 =? 0); [injection H0 as <- <-; simpl; lia |].
    destruct (64 <=? shift); [discriminate |].
    apply IH in H0; [simpl; lia |]. unfold u64. apply Z.mod_pos_bound. lia.
Qed.

Lemma varint_loop_not_nofuel (msg : string) (rest : list byte) (d : byte) (used : nat) (size shift : Z) :
  varint_loop msg rest d used size shift <> NoFuel.
Proof.
  revert d used size shift. induction rest as [| d' rest IH]; intros d used size shift;
    cbn [varint_loop]; destruct (Z.land (bv d) 128 =? 0); try discriminate.
  destruct (64 <=? shift); [discriminate | apply IH].
Qed.

Lemma readSize_ok (P : list byte) (v : Z) (u : nat) :
  readSize P = Ok (v, u) -> 0 <= v < 2 ^ 64 /\ (u <= length P)%nat.
Proof.
  unfold readSize, index. destruct P as [| d P]; [discriminate |]. cbn [nth_error obind skipn].
  intros H0. rewrite drop_0 in H0. apply varint_loop_ok in H0; [simpl; lia |].
  change 127 with (Z.ones 7). rewrite Z.land_ones by lia.
  pose proof (Z.mod_pos_bound (bv d) (2 ^ 7) ltac:(lia)). lia.
Qed.

Lemma readSize_not_nofuel (P : list byte) : readSize P <> NoFuel.
Proof.
  unfold readSize, index. destruct P as [| d P]; [discriminate |]. cbn [nth_error obind skipn].
  apply varint_loop_not_nofuel.
Qed.


Lemma length_string_of (l : list byte) : String.length (string_of l) = length l.
Proof.
  unfold string_of, string_of_list_byte. rewrite <- (length_map ascii_of_byte l).
  induction (map ascii_of_byte l) as [| a m IH]; simpl; congruence.
Qed.

Lemma length_hash (m : list byte) : length (hash m) = 20%nat.
Proof. unfold hash, SHA1.sum, SHA1.be_bytes. rewrite !length_app, !length_map, !length_seq. reflexivity. Qed.

Lemma length_hexDump (b : list byte) : String.length (hexDump b) = (2 * length b)%nat.
Proof.
  unfold hexDump. rewrite length_string_of.
  induction b as [| x b IH]; simpl; [reflexivity | rewrite IH; lia].
Qed.

Section ObjectStoreFacts.
Context `{Zlib}.

(** [writeObject] always succeeds: it stores the zipped data under the
    path named by the hash and returns the hash. *)
Lemma writeObject_eq (st : store) (d : list byte) :
  writeObject st d =
    (<[objPath (substring 0 2 (hexDump (hash d))) (substring 2 38 (hexDump (hash d))) := zip d]> st,
     Ok (hash d)).
Proof.
  unfold writeObject, splitDirFile. rewrite length_hexDump, length_hash. reflexivity.
Qed.

End ObjectStoreFacts.



Section DeltaRefinement.
Context `{Zlib}.




End DeltaRefinement.

(** C1 (code bug): the copy and insert instructions slice the base and the
    delta with [s[lo:hi]], which Go checks against the capacity of the
    slice, not its length. [writePackfile] hands [writeDeltaObject] a
    delta read by [io.ReadAll] and a base read into a [bytes.Buffer],
    both with unused (zeroed) capacity, so an instruction that runs past
    the end of either is not rejected: it reads zero bytes. With at least
    3 bytes of unused capacity behind each, the delta
    [0x0b 0x05 0x05 'h' 'e'] (base size 11, result size 5, an insert of 5
    bytes of which only 2 remain) turns the base "hello world" into
    "he" followed by three zero bytes, and the delta [0x0b 0x0e 0x90 0x0e]
    (result size 14, a copy of 14 bytes from offset 0) into "hello world"
    followed by three zero bytes; both are written to the store and the
    call succeeds, where the same calls on slices without unused capacity
    fail with a Go panic. *)
Theorem writeDeltaObject_reads_spare_capacity `{Zlib} (st : store) (Bsp Dsp : nat) :
  (3 <= Bsp)%nat -> (3 <= Dsp)%nat ->
  writeDeltaObject st (bytes_of "hello world") Bsp
      [Byte.x0b; Byte.x05; Byte.x05; Byte.x68; Byte.x65] Dsp "blob"
    = (fst (writeObjectWithType st (bytes_of "he" ++ [Byte.x00; Byte.x00; Byte.x00]) "blob"), Ok tt) /\
  writeDeltaObject st (bytes_of "hello world") Bsp [Byte.x0b; Byte.x0e; Byte.x90; Byte.x0e] Dsp "blob"
    = (fst (writeObjectWithType st (bytes_of "hello world" ++ [Byte.x00; Byte.x00; Byte.x00]) "blob"),
       Ok tt) /\
  go_failure (snd (writeDeltaObject st (bytes_of "hello world") 0
                     [Byte.x0b; Byte.x05; Byte.x05; Byte.x68; Byte.x65] 0 "blob")) /\
  go_failure (snd (writeDeltaObject st (bytes_of "hello world") 0
                     [Byte.x0b; Byte.x0e; Byte.x90; Byte.x0e] 0 "blob")).
Proof.
  intros HB HD.
  replace Bsp with (3 + (Bsp - 3))%nat by lia. replace Dsp with (3 + (Dsp - 3))%nat by lia.
  generalize (Bsp - 3)%nat (Dsp - 3)%nat. intros b d.
  assert (Hi : undeltify (bytes_of "hello world") (3 + b)
                 [Byte.x0b; Byte.x05; Byte.x05; Byte.x68; Byte.x65] (3 + d)
               = Ok (bytes_of "he" ++ [Byte.x00; Byte.x00; Byte.x00])) by reflexivity.
  assert (Hc : undeltify (bytes_of "hello world") (3 + b)
                 [Byte.x0b; Byte.x0e; Byte.x90; Byte.x0e] (3 + d)
               = Ok (bytes_of "hello world" ++ [Byte.x00; Byte.x00; Byte.x00])) by reflexivity.
  split; [| split; [| split]].
  - unfold writeDeltaObject. rewrite Hi. unfold writeObjectWithType. rewrite writeObject_eq.
    reflexivity.
  - unfold writeDeltaObject. rewrite Hc. unfold writeObjectWithType. rewrite writeObject_eq.
    reflexivity.
  - vm_compute. exact I.
  - vm_compute. exact I.
Qed.

Lemma writeDeltaObject_reads_spare_capacity_witness :
  (3 <= 493)%nat /\ (3 <= 507)%nat /\
  writeDeltaObject (∅ : store) (bytes_of "hello world") 493
      [Byte.x0b; Byte.x05; Byte.x05; Byte.x68; Byte.x65] 507 "blob"
    = (fst (writeObjectWithType (∅ : store) (bytes_of "he" ++ [Byte.x00; Byte.x00; Byte.x00]) "blob"),
       Ok tt).
Proof.
  split; [lia |]. split; [lia |].
  exact (proj1 (writeDeltaObject_reads_spare_capacity (∅ : store) 493 507
                  ltac:(lia) ltac:(lia))).
Defined.



Lemma readPktLine_frame_witness :
  Z.of_nat (length (bytes_of "done")) <= 65516 /\
  readPktLine (pkt_frame (bytes_of "done") ++ []) 512 = Ok (8%nat, bytes_of "done").
Proof.
  split; [simpl; lia |].
  exact (readPktLine_frame (bytes_of "done") [] 512 ltac:(simpl; lia)).
Defined.

(* ------------------------------------------------------------------ *)
(** ** The opcode 0x00 *)

(** C4 (counterexample): a delta whose instructions include the opcode
    0x00 (an insert of [0x00 & 0x7F = 0] bytes) is accepted: on the base
    "hello world", the delta [0x0b 0x05 0x00 0x90 0x05] (base size 11,
    result size 5, the opcode 0x00, then a copy of 5 bytes from offset 0)
    writes "hello" and succeeds. *)
Lemma writeDeltaObject_zero_insert_accepted :
  ~ (forall (st : store) (B : list byte) (Bsp : nat) (D : list byte) (Dsp : nat) (T : string)
       (instrs : list delta_instr),
       delta_instructions D = Some instrs -> In (Insert []) instrs ->
       go_failure (snd (writeDeltaObject st B Bsp D Dsp T))).
Proof.
  intros Hall.
  specialize (Hall ∅ (bytes_of "hello world") 0%nat [Byte.x0b; Byte.x05; Byte.x00; Byte.x90; Byte.x05]
                0%nat "blob" [Insert []; Copy 0 5] ltac:(vm_compute; reflexivity)
                ltac:(left; reflexivity)).
  vm_compute in Hall. exact Hall.
Qed.

(** C4 (amended): the opcode 0x00 is an empty insert, not an error: the
    instruction loop consumes it, appends nothing and goes on with the
    next byte, so [writeDeltaObject] fails on such a stream only when one
    of its other checks fails. *)
Theorem delta_loop_zero_insert (fuel : nat) (B : list byte) (Bsp : nat) (D : list byte) (Dsp : nat)
    (used : nat) (buffer : list byte) :
  nth_error D used = Some Byte.x00 ->
  delta_loop (S fuel) B Bsp D Dsp used buffer = delta_loop fuel B Bsp D Dsp (S used) buffer.
Proof.
  intros Hop. assert (Hlt : (used < length D)%nat) by (apply nth_error_Some; congruence).
  cbn [delta_loop]. replace (used <? length D)%nat with true by (symmetry; apply Nat.ltb_lt; lia).
  unfold index. rewrite Hop. cbn [negb obind]. change (Z.land (bv Byte.x00) 128 =? 0) with true.
  cbn [negb]. change (Z.to_nat (Z.land (bv Byte.x00) 127)) with 0%nat.
  unfold slice_spare, slice. rewrite Nat.add_0_r, Nat.leb_refl, length_app.
  replace (S used <=? length D + length (repeat Byte.x00 Dsp))%nat with true
    by (symmetry; apply Nat.leb_le; lia).
  cbn [andb obind]. rewrite Nat.sub_diag. cbn [firstn]. rewrite app_nil_r. reflexivity.
Qed.

Lemma delta_loop_zero_insert_witness :
  nth_error [Byte.x0b; Byte.x05; Byte.x00; Byte.x90; Byte.x05] 2 = Some Byte.x00 /\
  delta_loop 4 (bytes_of "hello world") 493 [Byte.x0b; Byte.x05; Byte.x00; Byte.x90; Byte.x05] 507 2 []
    = delta_loop 3 (bytes_of "hello world") 493 [Byte.x0b; Byte.x05; Byte.x00; Byte.x90; Byte.x05] 507 3 [].
Proof.
  split; [reflexivity |].
  exact (delta_loop_zero_insert 3 (bytes_of "hello world") 493
           [Byte.x0b; Byte.x05; Byte.x00; Byte.x90; Byte.x05] 507 2 [] eq_refl).
Defined.

(* ------------------------------------------------------------------ *)
(** ** The packfile envelope *)

Lemma lor_shiftl_add (a b n : Z) :
  0 <= n -> 0 <= b < 2 ^ n -> Z.lor (Z.shiftl a n) b = a * 2 ^ n + b.
Proof.
  intros Hn Hb.
  assert (Hd : Z.land (Z.shiftl a n) b = 0).
  { apply Z.bits_inj_0. intros m. rewrite Z.land_spec.
    destruct (Z.lt_ge_cases m n).
    - destruct (Z.lt_ge_cases m 0).
      + rewrite Z.testbit_neg_r by lia. reflexivity.
      + rewrite Z.shiftl_spec_low by lia. reflexivity.
    - rewrite <- (Z.mod_small b (2 ^ n)) by lia.
      rewrite Z.mod_pow2_bits_high by lia. apply andb_false_r. }
  rewrite <- Z.lxor_lor by exact Hd. rewrite <- Z.add_nocarry_lxor by exact Hd.
  rewrite Z.shiftl_mul_pow2 by lia. reflexivity.
Qed.

Lemma readUint32BigEndian_be (b0 b1 b2 b3 : byte) :
  readUint32BigEndian [b0; b1; b2; b3] = Ok (be_value [b0; b1; b2; b3]).
Proof.
  unfold readUint32BigEndian, index. cbn [nth_error obind]. f_equal.
  pose proof (bv_bound b0). pose proof (bv_bound b1).
  pose proof (bv_bound b2). pose proof (bv_bound b3).
  replace (Z.shiftl (bv b0) 24) with (Z.shiftl (Z.shiftl (bv b0) 8) 16)
    by (rewrite Z.shiftl_shiftl by lia; reflexivity).
  rewrite <- Z.shiftl_lor.
  rewrite (lor_shiftl_add (bv b2) (bv b3) 8) by lia.
  rewrite (lor_shiftl_add (bv b0) (bv b1) 8) by lia.
  rewrite lor_shiftl_add by lia.
  unfold be_value. simpl. lia.
Qed.

Lemma list_length4 (l : list byte) :
  length l = 4%nat -> exists b0 b1 b2 b3, l = [b0; b1; b2; b3].
Proof.
  destruct l as [| b0 [| b1 [| b2 [| b3 [| ? ?]]]]]; simpl; intros; try discriminate.
  eauto.
Qed.

(** The version field is the four bytes after the magic. *)
Lemma verify_version_bytes (P : list byte) :
  (32 <= length P)%nat ->
  slice (firstn (length P - 20) P) 4 8 = Ok (firstn 4 (skipn 4 P)).
Proof.
  intros HP. unfold slice. rewrite length_firstn.
  replace ((4 <=? 8)%nat && (8 <=? Nat.min (length P - 20) (length P))%nat) with true
    by (symmetry; apply andb_true_intro; split; apply Nat.leb_le; lia).
  f_equal. rewrite skipn_firstn_comm, firstn_firstn. f_equal. lia.
Qed.

(** A verified pack with one trailer byte changed fails the checksum. *)
Lemma verify_corrupt_trailer (P : list byte) (i : nat) (b : byte) :
  verifyPackfile P = Ok tt -> (length P - 20 <= i < length P)%nat -> P !! i <> Some b ->
  verifyPackfile (<[i := b]> P) = Err "invalid packfile checksum".
Proof.
  intros Hv Hi Hb. unfold verifyPackfile in *. rewrite length_insert.
  destruct (length P <? 32)%nat; [discriminate |].
  assert (Hpre : firstn (length P - 20) (<[i := b]> P) = firstn (length P - 20) P)
    by (rewrite take_insert; destruct (decide (i < length P - 20)%nat); [lia | reflexivity]).
  rewrite Hpre.
  destruct (bool_decide (skipn (length P - 20) P = hash (firstn (length P - 20) P))) eqn:Ec;
    [| discriminate].
  apply bool_decide_eq_true in Ec.
  replace (bool_decide (skipn (length P - 20) (<[i := b]> P) = hash (firstn (length P - 20) P)))
    with false; [reflexivity |].
  symmetry. apply bool_decide_eq_false. intros Ec'.
  assert (Heq : <[i := b]> P = P).
  { rewrite <- (firstn_skipn (length P - 20) (<[i := b]> P)), Hpre, Ec', <- Ec.
    apply firstn_skipn. }
  apply Hb. rewrite <- Heq. apply list_lookup_insert_eq. lia.
Qed.

Lemma verifyPackfile_ok_iff (P : list byte) :
  verifyPackfile P = Ok tt <->
    (32 <= length P)%nat /\ skipn (length P - 20) P = hash (firstn (length P - 20) P) /\
    firstn 4 P = bytes_of "PACK" /\
    (be_value (firstn 4 (skipn 4 P)) = 2 \/ be_value (firstn 4 (skipn 4 P)) = 3).
Proof.
  unfold verifyPackfile. destruct (length P <? 32)%nat eqn:E.
  { apply Nat.ltb_lt in E. split; [discriminate | intros [H0 _]; lia]. }
  apply Nat.ltb_ge in E.
  rewrite firstn_firstn, Nat.min_l by lia. rewrite verify_version_bytes by lia.
  assert (L4 : length (firstn 4 (skipn 4 P)) = 4%nat)
    by (rewrite length_firstn, length_skipn; lia).
  destruct (list_length4 _ L4) as (b0 & b1 & b2 & b3 & Hb). rewrite Hb. cbn [obind].
  rewrite readUint32BigEndian_be. cbn [obind].
  destruct (bool_decide (skipn (length P - 20) P = hash (firstn (length P - 20) P))) eqn:Ec;
    [apply bool_decide_eq_true in Ec | apply bool_decide_eq_false in Ec];
    cbn [negb]; [| split; [discriminate | tauto]].
  destruct (bool_decide (firstn 4 P = bytes_of "PACK")) eqn:Eh;
    [apply bool_decide_eq_true in Eh | apply bool_decide_eq_false in Eh];
    cbn [negb]; [| split; [discriminate | tauto]].
  destruct (be_value [b0; b1; b2; b3] =? 2) eqn:E2; [apply Z.eqb_eq in E2 | apply Z.eqb_neq in E2];
  destruct (be_value [b0; b1; b2; b3] =? 3) eqn:E3; [apply Z.eqb_eq in E3 | apply Z.eqb_neq in E3 | apply Z.eqb_eq in E3 | apply Z.eqb_neq in E3];
    cbn [negb andb]; split; try tauto; try discriminate.
Qed.

Lemma verifyPackfile_cases (P : list byte) :
  verifyPackfile P = Ok tt \/ exists m, verifyPackfile P = Err m.
Proof.
  unfold verifyPackfile. destruct (length P <? 32)%nat eqn:E; [right; eauto |].
  apply Nat.ltb_ge in E. rewrite verify_version_bytes by lia.
  assert (L4 : length (firstn 4 (skipn 4 P)) = 4%nat)
    by (rewrite length_firstn, length_skipn; lia).
  destruct (list_length4 _ L4) as (b0 & b1 & b2 & b3 & Hb). rewrite Hb. cbn [obind].
  rewrite readUint32BigEndian_be. cbn [obind].
  repeat match goal with
         | |- context [if ?c then _ else _] => destruct c
         end; eauto.
Qed.

Section InitFacts.
Context `{Worktree}.

Lemma Init_cases (w : wt) : (exists w', Init w = Ok w') \/ (exists m, Init w = Err m).
Proof.
  unfold Init. destruct (mkdirAll w ".git" 493); [| eauto].
  destruct (mkdirAll _ ".git/objects" 493); [| eauto].
  destruct (mkdirAll _ ".git/refs" 493); [| eauto].
  destruct (writeFile _ _ _ _) as [w' []]; eauto.
Qed.

End InitFacts.

Section Envelope.
Context `{Zlib} `{Http} `{Worktree}.

(** C3: [verifyPackfile] succeeds exactly when the pack has at least 32
    bytes, its last 20 bytes are the SHA-1 of the bytes before them, it
    starts with "PACK" and the big-endian version at offset 4 is 2 or 3.
    Otherwise it returns an error (never a panic), [writePackfile] returns
    that error with the store untouched, and [Clone] of a remote whose
    upload-pack yields that pack fails with its store unchanged; in
    particular a well-formed pack with one trailer byte changed fails with
    the checksum error. *)
Theorem verifyPackfile_spec (P : list byte) :
  (verifyPackfile P = Ok tt <->
     (32 <= length P)%nat /\ skipn (length P - 20) P = hash (firstn (length P - 20) P) /\
     firstn 4 P = bytes_of "PACK" /\
     (be_value (firstn 4 (skipn 4 P)) = 2 \/ be_value (firstn 4 (skipn 4 P)) = 3)) /\
  (verifyPackfile P <> Ok tt ->
     (exists m, verifyPackfile P = Err m) /\
     (forall st : store, writePackfile st P = (st, verifyPackfile P)) /\
     (forall (fuel : nat) (w : wt) (st : store) (remoteRepo dir : string) (commit : string),
        getPackfile remoteRepo = Ok (P, commit) ->
        snd (fst (Clone fuel w st remoteRepo dir)) = st /\
        go_failure (snd (Clone fuel w st remoteRepo dir)))) /\
  (forall (i : nat) (b : byte),
     verifyPackfile P = Ok tt -> (length P - 20 <= i < length P)%nat -> P !! i <> Some b ->
     verifyPackfile (<[i := b]> P) = Err "invalid packfile checksum").
Proof.
  split; [apply verifyPackfile_ok_iff |]. split; [| apply verify_corrupt_trailer].
  intros Hne. destruct (verifyPackfile_cases P) as [Hok | [m Hm]]; [contradiction |].
  split; [eauto |]. split.
  - intros st. unfold writePackfile. rewrite Hm. reflexivity.
  - intros fuel w st remoteRepo dir commit Hg. unfold Clone.
    destruct (mkdirAll w dir 493) as [w1 |]; [| split; [reflexivity | exact I]].
    destruct (chdir w1 dir) as [w2 |]; [| split; [reflexivity | exact I]].
    destruct (Init_cases w2) as [[w3 Hi] | [m' Hi]]; rewrite Hi; [| split; [reflexivity | exact I]].
    rewrite Hg. unfold writePackfile. rewrite Hm. split; [reflexivity | exact I].
Qed.

End Envelope.

Lemma verifyPackfile_spec_witness :
  verifyPackfile empty_pack = Ok tt /\
  (length empty_pack - 20 <= 31 < length empty_pack)%nat /\ empty_pack !! 31%nat <> Some Byte.x00 /\
  verifyPackfile (<[31%nat := Byte.x00]> empty_pack) = Err "invalid packfile checksum".
Proof.
  assert (Hv : verifyPackfile empty_pack = Ok tt) by (vm_compute; reflexivity).
  assert (Hl : (length empty_pack - 20 <= 31 < length empty_pack)%nat) by (vm_compute; lia).
  assert (Hb : empty_pack !! 31%nat <> Some Byte.x00) by (vm_compute; discriminate).
  split; [exact Hv |]. split; [exact Hl |]. split; [exact Hb |].
  exact (proj2 (proj2 (@verifyPackfile_spec toy_zlib (http_of None None) toy_worktree empty_pack))
           31%nat Byte.x00 Hv Hl Hb).
Defined.

(* ------------------------------------------------------------------ *)
(** ** Offset deltas *)

Section OfsDelta.
Context `{Zlib}.

Lemma readObjectInPackfile_cases (p : list byte) :
  (exists r, readObjectInPackfile p = Ok r) \/ (exists m, readObjectInPackfile p = Err m).
Proof. unfold readObjectInPackfile. destruct (inflate p); eauto. Qed.

(** C8: an object whose header (at [used]) has type 6 makes the object
    loop fail with the store unchanged, so no offset delta is written or
    resolved. When its base-offset varint and the deflate stream after it
    are read, the error is "bad object header length" if the inflated
    length differs from the declared size, and otherwise the
    unsupported-offset-delta error "cant handle ofsdelta object". *)
Theorem readPackObject_ofs_delta (st : store) (packfile full : list byte) (used : nat)
    (deltaObjects : list DeltaObject) (size : Z) (read : nat) :
  (let? p := slice_from packfile used in readObjectHeader p) = Ok (size, 6, read) ->
  fst (readPackObject st packfile full used deltaObjects) = st /\
  go_failure (snd (readPackObject st packfile full used deltaObjects)) /\
  (forall (fuel : nat) (objectsRead : Z), (used < length packfile)%nat ->
     fst (readObjects (S fuel) st packfile full used objectsRead deltaObjects) = st /\
     go_failure (snd (readObjects (S fuel) st packfile full used objectsRead deltaObjects))) /\
  (forall (baseOffset : Z) (n k : nat) (object : list byte),
     readSize (skipn (used + read) packfile) = Ok (baseOffset, n) ->
     readObjectInPackfile (skipn (used + read + n) packfile) = Ok (k, object) ->
     snd (readPackObject st packfile full used deltaObjects) =
       if go_int size =? Z.of_nat (length object) then Err "cant handle ofsdelta object"
       else Err "bad object header length").
Proof.
  intros Hh.
  assert (Hr : fst (readPackObject st packfile full used deltaObjects) = st /\
               go_failure (snd (readPackObject st packfile full used deltaObjects))).
  { unfold readPackObject. rewrite Hh. cbn -[slice_from readSize readObjectInPackfile go_int].
    split; [reflexivity |].
    unfold slice_from. destruct (used + read <=? length packfile)%nat; cbn [obind]; [| exact I].
    pose proof (readSize_not_nofuel (skipn (used + read) packfile)) as Hnf.
    destruct (readSize (skipn (used + read) packfile)) as [[bs n] | m | m |];
      cbn [obind snd]; try exact I; [| congruence].
    destruct (used + read + n <=? length packfile)%nat; cbn [obind]; [| exact I].
    destruct (readObjectInPackfile_cases (skipn (used + read + n) packfile)) as [[r ->] | [m ->]];
      cbn [obind]; [| exact I].
    destruct (go_int size =? Z.of_nat (length (snd r))); exact I. }
  split; [apply Hr |]. split; [apply Hr |]. split.
  - intros fuel objectsRead Hlt. cbn [readObjects].
    replace (used <? length packfile)%nat with true by (symmetry; apply Nat.ltb_lt; lia).
    cbn [negb]. destruct (readPackObject st packfile full used deltaObjects) as [st' r] eqn:E.
    cbn [fst snd] in Hr. destruct Hr as [-> Hf].
    destruct r as [[u ds] | m | m |]; cbn in Hf |- *; tauto.
  - intros baseOffset n k object Hs Ho.
    unfold readPackObject. rewrite Hh. cbn -[slice_from readSize readObjectInPackfile go_int].
    unfold slice_from.
    destruct (used + read <=? length packfile)%nat eqn:E1.
    2:{ rewrite skipn_all2 in Hs by (apply Nat.leb_gt in E1; lia). discriminate. }
    cbn [obind]. rewrite Hs. cbn [obind snd].
    destruct (readSize_ok _ _ _ Hs) as [_ Hn]. rewrite length_skipn in Hn.
    replace (used + read + n <=? length packfile)%nat with true
      by (symmetry; apply Nat.leb_le; apply Nat.leb_le in E1; lia).
    cbn [obind]. rewrite Ho. cbn [obind snd]. destruct (go_int size =? Z.of_nat (length object)); reflexivity.
Qed.

End OfsDelta.

Lemma readPackObject_ofs_delta_witness :
  (let? p := slice_from [Byte.x60; Byte.x01; Byte.x00] 0 in readObjectHeader p) = Ok (0, 6, 1%nat) /\
  snd (readPackObject ∅ [Byte.x60; Byte.x01; Byte.x00] [Byte.x60; Byte.x01; Byte.x00] 0 [])
    = Err "cant handle ofsdelta object".
Proof.
  assert (Hh : (let? p := slice_from [Byte.x60; Byte.x01; Byte.x00] 0 in readObjectHeader p)
               = Ok (0, 6, 1%nat)) by reflexivity.
  split; [exact Hh |].
  destruct (readPackObject_ofs_delta ∅ [Byte.x60; Byte.x01; Byte.x00] [Byte.x60; Byte.x01; Byte.x00]
              0 [] 0 1 Hh) as (_ & _ & _ & H4).
  exact (H4 1 1%nat 1%nat [] eq_refl eq_refl).
Defined.

(* ------------------------------------------------------------------ *)
(** ** Delta resolution *)

Section Resolution.
Context `{Zlib}.

Lemma copy_operands_used (n bit : nat) (op : Z) (D : list byte) (used : nat) (acc : Z) :
  copy_operands n bit op D used acc <> NoFuel /\
  (forall r, copy_operands n bit op D used acc = Ok r -> (used <= snd r)%nat).
Proof.
  revert bit used acc. induction n as [| n IH]; intros bit used acc; cbn [copy_operands].
  - split; [discriminate | intros r E; injection E as <-; simpl; lia].
  - destruct (negb _).
    + unfold index. destruct (nth_error D used) as [b |]; cbn [obind];
        [| split; [discriminate | discriminate]].
      destruct (IH (S bit) (S used) (u64 (acc + Z.shiftl (bv b) (Z.of_nat bit * 8)))) as [H1 H2].
      split; [exact H1 | intros r E; specialize (H2 r E); lia].
    + apply IH.
Qed.

Lemma delta_loop_not_nofuel (fuel : nat) (B : list byte) (Bsp : nat) (D : list byte) (Dsp : nat)
    (used : nat) (buffer : list byte) :
  (length D - used <= fuel)%nat -> delta_loop fuel B Bsp D Dsp used buffer <> NoFuel.
Proof.
  revert used buffer. induction fuel as [| f IH]; intros used buffer Hf; cbn [delta_loop].
  - replace (used <? length D)%nat with false by (symmetry; apply Nat.ltb_ge; lia). discriminate.
  - destruct (used <? length D)%nat eqn:Hlt; cbn [negb]; [| discriminate].
    apply Nat.ltb_lt in Hlt.
    unfold index. destruct (nth_error D used) as [op |]; cbn [obind]; [| discriminate].
    destruct (negb _).
    + destruct (copy_operands_used 7 0 (bv op) D (S used) 0) as [Hn Hu].
      destruct (copy_operands 7 0 (bv op) D (S used) 0) as [r | | |] eqn:Ec; cbn [obind];
        try discriminate; [| congruence].
      specialize (Hu r eq_refl).
      unfold slice_spare, slice. destruct (_ && _)%bool; cbn [obind]; [| discriminate].
      apply IH. lia.
    + unfold slice_spare, slice. destruct (_ && _)%bool; cbn [obind]; [| discriminate].
      apply IH. lia.
Qed.

Lemma undeltify_not_nofuel (B : list byte) (Bsp : nat) (D : list byte) (Dsp : nat) :
  undeltify B Bsp D Dsp <> NoFuel.
Proof.
  unfold undeltify. pose proof (readSize_not_nofuel D).
  destruct (readSize D) as [[bs used] | | |]; cbn [obind]; try discriminate; [| congruence].
  destruct (negb _); [discriminate |].
  unfold slice_from. destruct (used <=? length D)%nat; cbn [obind]; [| discriminate].
  pose proof (readSize_not_nofuel (skipn used D)).
  destruct (readSize (skipn used D)) as [[rs read] | | |]; cbn [obind]; try discriminate;
    [| congruence].
  pose proof (delta_loop_not_nofuel (length D) B Bsp D Dsp (used + read) [] ltac:(lia)).
  destruct (delta_loop (length D) B Bsp D Dsp (used + read) []); cbn [obind]; try discriminate;
    [| congruence].
  destruct (negb _); discriminate.
Qed.

(** The keys of the store only grow. *)
Lemma writeDeltaObject_keys (st : store) (B : list byte) (Bsp : nat) (D : list byte) (Dsp : nat)
    (T : string) (k : string) :
  is_Some (st !! k) -> is_Some (fst (writeDeltaObject st B Bsp D Dsp T) !! k).
Proof.
  intros Hk. unfold writeDeltaObject. destruct (undeltify B Bsp D Dsp); cbn [fst]; try exact Hk.
  unfold writeObjectWithType. rewrite writeObject_eq. cbn [fst].
  apply lookup_insert_is_Some'. right. exact Hk.
Qed.

Lemma writeDeltaObject_not_nofuel (st : store) (B : list byte) (Bsp : nat) (D : list byte)
    (Dsp : nat) (T : string) :
  snd (writeDeltaObject st B Bsp D Dsp T) <> NoFuel.
Proof.
  unfold writeDeltaObject. pose proof (undeltify_not_nofuel B Bsp D Dsp).
  destruct (undeltify B Bsp D Dsp) as [out | | |]; cbn [snd fail_as]; [| discriminate | discriminate | congruence].
  unfold writeObjectWithType. rewrite writeObject_eq. discriminate.
Qed.

Lemma openObject_not_nofuel (st : store) (h : string) : openObject st h <> NoFuel.
Proof.
  unfold openObject, readObject, splitDirFile.
  destruct (String.length h <? 2)%nat; cbn [obind]; [discriminate |].
  destruct (st !! _); cbn [obind]; [| discriminate].
  destruct (unzip _); cbn [obind]; [| discriminate].
  destruct (indexByte _ _); [| discriminate].
  destruct (sscanf_s_d _). destruct (negb _); discriminate.
Qed.

Lemma objectExists_cases (st : store) (h : string) :
  objectExists st h = Ok true \/ objectExists st h = Ok false \/
  exists m, objectExists st h = Panic m.
Proof.
  unfold objectExists, splitDirFile. destruct (String.length h <? 2)%nat; cbn [obind]; [eauto |].
  destruct (st !! _); auto.
Qed.

(** Presence of an object carries over to a store with more keys. *)
Lemma objectExists_keys (st st' : store) (h : string) :
  (forall k, is_Some (st !! k) -> is_Some (st' !! k)) ->
  objectExists st h = Ok true -> objectExists st' h = Ok true.
Proof.
  intros Hk. unfold objectExists. destruct (splitDirFile h) as [df | | |]; cbn [obind]; try discriminate.
  destruct (st !! _) eqn:E; [| discriminate]. intros _.
  destruct (Hk _ (mk_is_Some _ _ E)) as [v ->]. reflexivity.
Qed.

Lemma objectExists_keys_false (st st' : store) (h : string) :
  (forall k, is_Some (st !! k) -> is_Some (st' !! k)) ->
  objectExists st' h = Ok false -> objectExists st h = Ok false.
Proof.
  intros Hk He. destruct (objectExists_cases st h) as [Ht | [Hf | [m Hp]]].
  - rewrite (objectExists_keys st st' h Hk Ht) in He. discriminate.
  - exact Hf.
  - unfold objectExists in *. destruct (splitDirFile h); cbn [obind] in *; try discriminate;
      destruct (st !! _); discriminate.
Qed.

(** One pass: the residual queue [r] is a sublist of the queue whose
    deltas all had an absent base at the start of the pass; no delta whose
    base was present is carried; the pass either moved nothing (and then
    [added] is unchanged) or resolved at least one delta; the keys of the
    store only grow. *)
Lemma resolvePass_ok (st : store) (q u : list DeltaObject) (a : bool)
    (st' : store) (u' : list DeltaObject) (a' : bool) :
  resolvePass st q u a = (st', Ok (u', a')) ->
  exists r, u' = u ++ r /\ sublist r q /\
    ((r = q /\ a' = a) \/ (a' = true /\ (length r < length q)%nat)) /\
    (forall k, is_Some (st !! k) -> is_Some (st' !! k)) /\
    (forall d, d ∈ r -> objectExists st (baseObject d) = Ok false) /\
    (forall d, d ∈ q -> objectExists st (baseObject d) = Ok true -> d ∉ r).
Proof.
  revert st u a. induction q as [| d q IH]; intros st u a Hp; cbn [resolvePass] in Hp.
  - injection Hp as <- <- <-. exists []. rewrite app_nil_r.
    split; [reflexivity |]. split; [constructor |]. split; [left; auto |].
    split; [auto |]. split; intros x Hx; [inversion Hx | intros _ Hx'; inversion Hx'].
  - destruct (objectExists_cases st (baseObject d)) as [Ht | [Hf | [m Hm]]].
    + rewrite Ht in Hp. destruct (openObject st (baseObject d)) as [[B T] | | |]; try discriminate.
      destruct (writeDeltaObject st B (objectSpare st (baseObject d)) (data d) (data_spare d) T)
        as [st1 r1] eqn:Ew.
      destruct r1; try discriminate.
      pose proof (fun k => writeDeltaObject_keys st B (objectSpare st (baseObject d)) (data d)
                             (data_spare d) T k) as Hk1.
      rewrite Ew in Hk1.
      cbn [fst] in Hk1.
      destruct (IH _ _ _ Hp) as (r & -> & Hsub & Hprog & Hk & Habs & Hres).
      exists r. split; [reflexivity |]. split; [apply sublist_cons; exact Hsub |].
      split.
      { right. pose proof (sublist_length _ _ Hsub). simpl.
        destruct Hprog as [[-> ->] | [-> Hl]]; split; auto; lia. }
      split; [auto |]. split.
      * intros x Hx. apply (objectExists_keys_false st st1); auto.
      * intros x Hx Hex Hxr. apply elem_of_cons in Hx.
        assert (Hxq : x ∈ q) by (eapply elem_of_sublist; eauto).
        apply (Hres x Hxq); [| exact Hxr]. apply (objectExists_keys st st1); auto.
    + rewrite Hf in Hp. destruct (IH _ _ _ Hp) as (r & -> & Hsub & Hprog & Hk & Habs & Hres).
      exists (d :: r). split; [rewrite <- app_assoc; reflexivity |].
      split; [apply sublist_skip; exact Hsub |]. split.
      { destruct Hprog as [[-> ->] | [-> Hl]]; [left; auto | right; simpl; split; auto; lia]. }
      split; [auto |]. split.
      * intros x Hx. apply elem_of_cons in Hx. destruct Hx as [-> | Hx]; auto.
      * intros x Hx Hex Hxr. apply elem_of_cons in Hx, Hxr.
        destruct Hxr as [-> | Hxr]; [congruence |].
        destruct Hx as [-> | Hx]; [congruence |]. exact (Hres x Hx Hex Hxr).
    + rewrite Hm in Hp. discriminate.
Qed.

Lemma resolvePass_not_nofuel (st : store) (q u : list DeltaObject) (a : bool) :
  snd (resolvePass st q u a) <> NoFuel.
Proof.
  revert st u a. induction q as [| d q IH]; intros st u a; cbn [resolvePass]; [discriminate |].
  destruct (objectExists_cases st (baseObject d)) as [Ht | [Hf | [m Hm]]].
  - rewrite Ht. pose proof (openObject_not_nofuel st (baseObject d)).
    destruct (openObject st (baseObject d)) as [[B T] | | |]; cbn; try discriminate; [| congruence].
    pose proof (writeDeltaObject_not_nofuel st B (objectSpare st (baseObject d)) (data d)
                  (data_spare d) T).
    destruct (writeDeltaObject st B (objectSpare st (baseObject d)) (data d) (data_spare d) T)
      as [st1 []]; cbn in *; try discriminate; auto.
  - rewrite Hf. apply IH.
  - rewrite Hm. discriminate.
Qed.

Lemma writeDeltaObject_ok (st : store) (B : list byte) (Bsp : nat) (D : list byte) (Dsp : nat)
    (T : string) (out : list byte) :
  undeltify B Bsp D Dsp = Ok out ->
  writeDeltaObject st B Bsp D Dsp T = (fst (writeObjectWithType st out T), Ok tt).
Proof.
  intros Hu. unfold writeDeltaObject. rewrite Hu. unfold writeObjectWithType.
  rewrite writeObject_eq. reflexivity.
Qed.

Lemma writeDeltaObject_ok_inv (st : store) (B : list byte) (Bsp : nat) (D : list byte) (Dsp : nat)
    (T : string) (st1 : store) (x : unit) :
  writeDeltaObject st B Bsp D Dsp T = (st1, Ok x) ->
  exists out, undeltify B Bsp D Dsp = Ok out /\ st1 = fst (writeObjectWithType st out T).
Proof.
  unfold writeDeltaObject. destruct (undeltify B Bsp D Dsp) as [out | m | m |]; intros E;
    try (apply (f_equal snd) in E; cbn [snd fail_as] in E; discriminate).
  exists out. split; [reflexivity |].
  unfold writeObjectWithType in *. rewrite writeObject_eq in *. cbn [obind] in E.
  apply pair_equal_spec in E as [E1 _]. cbn [fst]. symmetry. exact E1.
Qed.

(** A successful pass is a pass as the format describes it. *)
Lemma resolvePass_pass_spec (st : store) (q u : list DeltaObject) (a : bool)
    (st' : store) (u' : list DeltaObject) (a' : bool) :
  resolvePass st q u a = (st', Ok (u', a')) -> exists r, u' = u ++ r /\ pass_spec st q st' r.
Proof.
  revert st u a. induction q as [| d q IH]; intros st u a Hp; cbn [resolvePass] in Hp.
  - injection Hp as <- <- <-. exists []. rewrite app_nil_r. split; [reflexivity | constructor].
  - destruct (objectExists_cases st (baseObject d)) as [Ht | [Hf | [m Hm]]].
    + rewrite Ht in Hp.
      destruct (openObject st (baseObject d)) as [[B T] | | |] eqn:Eo; try discriminate.
      destruct (writeDeltaObject st B (objectSpare st (baseObject d)) (data d) (data_spare d) T)
        as [st1 r1] eqn:Ew.
      destruct r1 as [x | | |]; try discriminate.
      destruct (writeDeltaObject_ok_inv _ _ _ _ _ _ _ _ Ew) as (out & Hu & ->).
      destruct (IH _ _ _ Hp) as (r & -> & Hr).
      exists r. split; [reflexivity |]. eapply pass_resolve; eauto.
    + rewrite Hf in Hp. destruct (IH _ _ _ Hp) as (r & -> & Hr).
      exists (d :: r). split; [rewrite <- app_assoc; reflexivity |]. apply pass_carry; auto.
    + rewrite Hm in Hp. discriminate.
Qed.

(** Every pass the format describes is what [resolvePass] does. *)
Lemma pass_spec_resolvePass (st : store) (q : list DeltaObject) (st' : store) (r : list DeltaObject) :
  pass_spec st q st' r -> forall u a, exists a', resolvePass st q u a = (st', Ok (u ++ r, a')).
Proof.
  induction 1 as [st | st d q B T out st' r Hex Ho Hu Hp IH | st d q st' r Hex Hp IH];
    intros u a; cbn [resolvePass].
  - exists a. rewrite app_nil_r. reflexivity.
  - rewrite Hex, Ho. rewrite (writeDeltaObject_ok st _ _ _ _ T out Hu). apply IH.
  - rewrite Hex. destruct (IH (u ++ [d]) a) as [a' E]. exists a'. rewrite E, <- app_assoc.
    reflexivity.
Qed.

End Resolution.

Section ResolutionLoop.
Context `{Zlib}.

Lemma resolveLoop_fuel (n m : nat) (st : store) (q : list DeltaObject) :
  (length q <= n)%nat -> (length q <= m)%nat -> resolveLoop n st q = resolveLoop m st q.
Proof.
  revert m st q. induction n as [| n IH]; intros m st q Hn Hm.
  - destruct q; [destruct m; reflexivity | simpl in Hn; lia].
  - destruct q as [| d q']; [destruct m; reflexivity |].
    destruct m as [| m]; [simpl in Hm; lia |]. cbn [resolveLoop].
    destruct (resolvePass st (d :: q') [] false) as [st1 r] eqn:Ep.
    destruct r as [[u [|]] | | |]; try reflexivity. cbn [negb].
    destruct (resolvePass_ok _ _ _ _ _ _ _ Ep) as (r & -> & _ & Hprog & _).
    destruct Hprog as [[_ Hf] | [_ Hl]]; [discriminate |].
    simpl in Hl, Hn, Hm. apply IH; simpl; lia.
Qed.

Lemma resolveLoop_not_nofuel (n : nat) (st : store) (q : list DeltaObject) :
  (length q <= n)%nat -> snd (resolveLoop n st q) <> NoFuel.
Proof.
  revert st q. induction n as [| n IH]; intros st q Hn.
  - destruct q; [discriminate | simpl in Hn; lia].
  - destruct q as [| d q']; [discriminate |]. cbn [resolveLoop].
    pose proof (resolvePass_not_nofuel st (d :: q') [] false) as Hnf.
    destruct (resolvePass st (d :: q') [] false) as [st1 r] eqn:Ep.
    destruct r as [[u [|]] | | |]; cbn [snd negb fail_as] in *; try discriminate; [| congruence].
    destruct (resolvePass_ok _ _ _ _ _ _ _ Ep) as (r & -> & _ & Hprog & _).
    destruct Hprog as [[_ Hf] | [_ Hl]]; [discriminate |].
    simpl in Hl, Hn. apply IH. simpl. lia.
Qed.

End ResolutionLoop.

Section ResolutionSpec.
Context `{Zlib}.

(** C2: the loop resolving the queue [q] of reference deltas, with the
    fuel [writePackfile] gives it ([length q]), never runs out of fuel,
    and more fuel does not change its result. A successful pass is
    exactly a pass of [pass_spec]: each delta whose base exists in the
    store is reconstructed by [undeltify] from the payload and type that
    [openObject] reads for its base, and the object is written with that
    type before the pass goes on in the grown store; each delta whose base
    is absent is carried. The pass yields a residual
    queue [r], a sublist of [q]: every delta in [r] had an absent base at
    the start of the pass, no delta whose base was present is in [r], and
    [added] is false exactly when [r = q]. After a pass with no progress
    on a non-empty queue the loop fails with "bad delta objects", after
    one with progress it goes on with [r] in the grown store, a failing
    pass ends it with that failure, and the empty queue is a success; so
    it succeeds exactly when the queue becomes empty. A delta carried by a
    pass whose base the pass itself wrote is resolved by the next pass. *)
Theorem resolveLoop_spec (st : store) (q : list DeltaObject) :
  (forall n, (length q <= n)%nat -> resolveLoop n st q = resolveLoop (length q) st q) /\
  snd (resolveLoop (length q) st q) <> NoFuel /\
  (q = [] -> resolveLoop (length q) st q = (st, Ok tt)) /\
  (forall st' e, resolvePass st q [] false = (st', e) -> failed e = true -> q <> [] ->
     resolveLoop (length q) st q = (st', fail_as e)) /\
  (forall st' r, pass_spec st q st' r -> exists added, resolvePass st q [] false = (st', Ok (r, added))) /\
  (forall st' r added, resolvePass st q [] false = (st', Ok (r, added)) ->
     pass_spec st q st' r /\
     sublist r q /\
     (forall k, is_Some (st !! k) -> is_Some (st' !! k)) /\
     (forall d, d ∈ r -> objectExists st (baseObject d) = Ok false) /\
     (forall d, d ∈ q -> objectExists st (baseObject d) = Ok true -> d ∉ r) /\
     (added = false <-> r = q) /\
     (q <> [] -> resolveLoop (length q) st q =
        if added then resolveLoop (length r) st' r else (st', Err "bad delta objects")) /\
     (forall d st'' r' added', d ∈ r -> objectExists st' (baseObject d) = Ok true ->
        resolvePass st' r [] false = (st'', Ok (r', added')) -> d ∉ r')).
Proof.
  split; [intros n Hn; apply resolveLoop_fuel; lia |].
  split; [apply resolveLoop_not_nofuel; lia |].
  split; [intros ->; reflexivity |].
  split.
  { intros st' e Hp Hf Hq. destruct q as [| d q']; [congruence |]. cbn [length resolveLoop].
    rewrite Hp. destruct e as [[u a] | | |]; [discriminate | reflexivity | reflexivity | reflexivity]. }
  split.
  { intros st' r Hs. exact (pass_spec_resolvePass st q st' r Hs [] false). }
  intros st' r added Hp.
  destruct (resolvePass_ok _ _ _ _ _ _ _ Hp) as (r0 & Hr0 & Hsub & Hprog & Hk & Habs & Hres).
  cbn [app] in Hr0. subst r0.
  split.
  { destruct (resolvePass_pass_spec _ _ _ _ _ _ _ Hp) as (r0 & Hr0 & Hs).
    cbn [app] in Hr0. subst r0. exact Hs. }
  split; [exact Hsub |]. split; [exact Hk |]. split; [exact Habs |]. split; [exact Hres |].
  split.
  { destruct Hprog as [[-> ->] | [-> Hl]]; split; intros; auto; [discriminate | subst; lia]. }
  split.
  { intros Hq. destruct q as [| d q']; [congruence |]. cbn [length resolveLoop].
    rewrite Hp. destruct added; cbn [negb]; [| reflexivity].
    destruct Hprog as [[_ Hf] | [_ Hl]]; [discriminate |].
    apply resolveLoop_fuel; simpl in Hl; lia. }
  intros d st'' r' added' Hd Hex Hp'.
  destruct (resolvePass_ok _ _ _ _ _ _ _ Hp') as (r1 & Hr1 & _ & _ & _ & _ & Hres').
  cbn [app] in Hr1. subst r1. exact (Hres' d Hd Hex).
Qed.

End ResolutionSpec.

Lemma resolveLoop_spec_witness :
  sample_d2 ∈ [sample_d2] /\
  objectExists (fst (resolvePass sample_store [sample_d2; sample_d1] [] false))
    (baseObject sample_d2) = Ok true /\
  resolvePass (fst (resolvePass sample_store [sample_d2; sample_d1] [] false)) [sample_d2] [] false
    = (fst (resolvePass (fst (resolvePass sample_store [sample_d2; sample_d1] [] false))
              [sample_d2] [] false), Ok ([], true)) /\
  sample_d2 ∉ ([] : list DeltaObject).
Proof.
  assert (Hp : resolvePass sample_store [sample_d2; sample_d1] [] false
               = (fst (resolvePass sample_store [sample_d2; sample_d1] [] false),
                  Ok ([sample_d2], true))) by (vm_compute; reflexivity).
  assert (Hin : sample_d2 ∈ [sample_d2]) by (left).
  assert (Hex : objectExists (fst (resolvePass sample_store [sample_d2; sample_d1] [] false))
                  (baseObject sample_d2) = Ok true) by (vm_compute; reflexivity).
  assert (Hp2 : resolvePass (fst (resolvePass sample_store [sample_d2; sample_d1] [] false))
                  [sample_d2] [] false
                = (fst (resolvePass (fst (resolvePass sample_store [sample_d2; sample_d1] [] false))
                          [sample_d2] [] false), Ok ([], true))) by (vm_compute; reflexivity).
  split; [exact Hin |]. split; [exact Hex |]. split; [exact Hp2 |].
  destruct (resolveLoop_spec sample_store [sample_d2; sample_d1])
    as (_ & _ & _ & _ & _ & Hpass).
  destruct (Hpass _ _ _ Hp) as (_ & _ & _ & _ & _ & _ & _ & Hchain).
  exact (Hchain sample_d2 _ [] true Hin Hex Hp2).
Defined.

(* ------------------------------------------------------------------ *)
(** ** Reference advertisement and transport *)

(** C5: the first ref of an advertisement carries the capability list
    after a NUL. [Sscanf]'s [%s] stops only at white space, so the ref read
    from that line is "refs/heads/master", a NUL and the first capability,
    which is not "refs/heads/master": when the first ref is master no line
    matches and [getObjectName] fails; the same advertisement without the
    capabilities yields the hash. *)
Lemma getObjectName_first_ref_capabilities :
  String.eqb (snd (sscanf_s_s (master_ref ++ [Byte.x00] ++ bytes_of "multi_ack thin-pack")))
    "refs/heads/master" = false /\
  getObjectName advert_caps = Err "invalid pktLines" /\
  getObjectName (advert [master_ref]) = Ok sample_hex.
Proof. split; [|split]; vm_compute; reflexivity. Qed.

(** C9 (counterexample): a 404 answer to the reference discovery and a
    500 answer to the upload-pack request, with well-formed bodies, do not
    make [getPackfile] fail. *)
Lemma getPackfile_non200_accepted :
  ~ (forall g p : response, (statusCode g <> 200 \/ statusCode p <> 200) ->
       go_failure (@getPackfile (http_of (Some g) (Some p)) "https://example.com/repo")).
Proof.
  intros H.
  pose proof (H {| statusCode := 404; body := discovery_body; body_spare := 512 |}
                {| statusCode := 500; body := upload_body; body_spare := 512 |}) as Hf.
  vm_compute in Hf. apply Hf. left. discriminate.
Qed.

(** C9: [getPackfile] never reads a status code. Two servers whose answers
    have the same bodies, read into buffers left with the same unused
    capacity (and fail on the same requests), give the same result,
    whatever their status codes; a transport error of the reference
    discovery is an error. *)
Theorem getPackfile_bodies_only (H1 H2 : Http) (url : string) :
  ((forall u, option_map bufferedBody (@http_get H1 u) = option_map bufferedBody (@http_get H2 u)) ->
   (forall u c b, option_map bufferedBody (@http_post H1 u c b)
                  = option_map bufferedBody (@http_post H2 u c b)) ->
   @getPackfile H1 url = @getPackfile H2 url) /\
  (forall post, @getPackfile (http_of None post) url = Err "http: request failed").
Proof.
  split; [|reflexivity].
  intros Hg Hp. unfold getPackfile.
  specialize (Hg (String.append url "/info/refs?service=git-upload-pack")).
  destruct (@http_get H1 _) as [r1|], (@http_get H2 _) as [r2|];
    cbn in Hg; try discriminate; [|reflexivity].
  injection Hg as Hb Hs. rewrite Hb, Hs.
  destruct (readPktLines (length (body r2)) (body r2) (body_spare r2) []) as [l| | |]; cbn; try reflexivity.
  destruct (getObjectName l) as [n| | |]; cbn; try reflexivity.
  specialize (Hp (String.append url "/git-upload-pack") "application/x-git-upload-pack-request"
                (wantRequest n)).
  destruct (@http_post H1 _ _ _) as [p1|], (@http_post H2 _ _ _) as [p2|];
    cbn in Hp; try discriminate; [|reflexivity].
  injection Hp as Hb' Hs'. rewrite Hb', Hs'. reflexivity.
Qed.

Lemma getPackfile_bodies_only_witness :
  (forall u, option_map bufferedBody
     (@http_get (http_of (Some {| statusCode := 404; body := discovery_body; body_spare := 512 |})
                         (Some {| statusCode := 500; body := upload_body; body_spare := 512 |})) u)
   = option_map bufferedBody
     (@http_get (http_of (Some {| statusCode := 200; body := discovery_body; body_spare := 512 |})
                         (Some {| statusCode := 200; body := upload_body; body_spare := 512 |})) u)) /\
  @getPackfile (http_of (Some {| statusCode := 404; body := discovery_body; body_spare := 512 |})
                        (Some {| statusCode := 500; body := upload_body; body_spare := 512 |})) "https://example.com/repo"
  = @getPackfile (http_of (Some {| statusCode := 200; body := discovery_body; body_spare := 512 |})
                          (Some {| statusCode := 200; body := upload_body; body_spare := 512 |})) "https://example.com/repo".
Proof.
  split; [intros; reflexivity|].
  apply (proj1 (getPackfile_bodies_only
                  (http_of (Some {| statusCode := 404; body := discovery_body; body_spare := 512 |})
                           (Some {| statusCode := 500; body := upload_body; body_spare := 512 |}))
                  (http_of (Some {| statusCode := 200; body := discovery_body; body_spare := 512 |})
                           (Some {| statusCode := 200; body := upload_body; body_spare := 512 |}))
                  "https://example.com/repo")); intros; reflexivity.
Defined.

(* ------------------------------------------------------------------ *)
(** ** Reading objects back *)

(** C6: the header "blob 99999999999999999999" declares a size outside
    the int64 range. [Sscanf]'s error is ignored and [size] keeps its zero
    value, so the object with an empty payload passes the size check and
    [openObject] returns it. *)
Lemma openObject_size_overflow :
  scan_d (bytes_of "99999999999999999999") = Err "value out of range" /\
  sscanf_s_d (bytes_of "blob 99999999999999999999") = ("blob"%string, 0) /\
  openObject overflow_store (hexDump (hash overflow_object)) = Ok ([], "blob"%string).
Proof. split; [|split]; vm_compute; reflexivity. Qed.

(* ------------------------------------------------------------------ *)
(** ** Checkout *)

Section CheckoutFacts.
Context `{Zlib} `{Worktree}.

Lemma checkoutEntry_unknown rec w st dir e :
  known_mode e = false -> checkoutEntry rec w st dir e = (w, Ok tt).
Proof.
  unfold known_mode, checkoutEntry. intros Hk.
  apply orb_false_iff in Hk as [Hk Hc]. apply orb_false_iff in Hk as [Ha Hb].
  rewrite Ha, Hb, Hc. reflexivity.
Qed.

Lemma checkoutEntries_filter rec w st dir entries :
  checkoutEntries rec w st dir entries = checkoutEntries rec w st dir (List.filter known_mode entries).
Proof.
  revert w. induction entries as [|e rest IH]; intros w; [reflexivity|].
  cbn [List.filter]. destruct (known_mode e) eqn:Hk.
  - cbn [checkoutEntries]. destruct (checkoutEntry rec w st dir e) as [w' r].
    destruct r; try reflexivity. apply IH.
  - cbn [checkoutEntries]. rewrite checkoutEntry_unknown by exact Hk. apply IH.
Qed.

End CheckoutFacts.

(** C10: for each tree entry, [checkoutTree] does nothing for a mode
    other than "40000", "100644" and "100755" and goes on; it recurses
    into a "40000" entry with its hash and dir/name; it writes the blob of
    a "100644" or "100755" entry to dir/name with permission 0644 (420);
    and a checkout of a tree is the checkout of its entries of these three
    modes. *)
Theorem checkoutTree_modes `{Zlib} `{Worktree} (w : wt) (st : store) (dir : string) :
  (forall rec e, known_mode e = false -> checkoutEntry rec w st dir e = (w, Ok tt)) /\
  (forall rec e, te_mode e = "40000"%string ->
     checkoutEntry rec w st dir e
     = rec w (hexDump (te_hash e)) (String.append dir (String.append "/" (te_name e)))) /\
  (forall rec e blob, (te_mode e = "100644"%string \/ te_mode e = "100755"%string) ->
     openObject st (hexDump (te_hash e)) = Ok (blob, "blob"%string) ->
     checkoutEntry rec w st dir e
     = (fst (writeFile w (String.append dir (String.append "/" (te_name e))) blob 420), Ok tt)) /\
  (forall f tree w1 entries, mkdirAll w dir 493 = Some w1 -> readTree st tree = Ok entries ->
     checkoutTree (S f) w st tree dir
     = checkoutEntries (fun w t d => checkoutTree f w st t d) w1 st dir
         (List.filter known_mode entries)).
Proof.
  split; [|split; [|split]].
  - intros rec e. apply checkoutEntry_unknown.
  - intros rec e Hm. unfold checkoutEntry. rewrite Hm. reflexivity.
  - intros rec e blob Hm Ho. unfold checkoutEntry. rewrite Ho.
    destruct Hm as [Hm|Hm]; rewrite Hm; reflexivity.
  - intros f tree w1 entries Hd Hr. cbn [checkoutTree]. rewrite Hd, Hr.
    apply checkoutEntries_filter.
Qed.

Lemma checkoutTree_modes_witness :
  known_mode {| te_hash := repeat Byte.x11 20; te_name := "link"; te_mode := "120000" |} = false /\
  checkoutEntry (fun w _ _ => (w, NoFuel)) [] sample_tree_store "."
    {| te_hash := repeat Byte.x11 20; te_name := "link"; te_mode := "120000" |} = ([], Ok tt) /\
  checkoutEntry (fun w _ _ => (w, NoFuel)) [] sample_tree_store "."
    {| te_hash := repeat Byte.x22 20; te_name := "sub"; te_mode := "40000" |}
  = ([], NoFuel) /\
  checkoutEntry (fun w _ _ => (w, NoFuel)) [] sample_tree_store "."
    {| te_hash := hash (typedObject (bytes_of "hello world") "blob"); te_name := "hello.txt";
       te_mode := "100644" |}
  = ([("./hello.txt"%string, bytes_of "hello world")], Ok tt) /\
  checkoutTree 3 [] sample_tree_store sample_tree "."
  = checkoutEntries (fun w t d => checkoutTree 2 w sample_tree_store t d) [] sample_tree_store "."
      (List.filter known_mode
         (match readTree sample_tree_store sample_tree with Ok es => es | _ => [] end)).
Proof.
  assert (Hk : known_mode {| te_hash := repeat Byte.x11 20; te_name := "link";
                             te_mode := "120000" |} = false) by reflexivity.
  split; [exact Hk|split; [|split; [|split]]].
  - exact (proj1 (@checkoutTree_modes toy_zlib toy_worktree [] sample_tree_store ".") _ _ Hk).
  - exact (proj1 (proj2 (@checkoutTree_modes toy_zlib toy_worktree [] sample_tree_store ".")) _
             {| te_hash := repeat Byte.x22 20; te_name := "sub"; te_mode := "40000" |}
             eq_refl).
  - exact (proj1 (proj2 (proj2 (@checkoutTree_modes toy_zlib toy_worktree [] sample_tree_store "."))) _
             {| te_hash := hash (typedObject (bytes_of "hello world") "blob");
                te_name := "hello.txt"; te_mode := "100644" |}
             (bytes_of "hello world") (or_introl eq_refl) ltac:(vm_compute; reflexivity)).
  - apply (proj2 (proj2 (proj2 (@checkoutTree_modes toy_zlib toy_worktree [] sample_tree_store ".")))).
    + reflexivity.
    + vm_compute; reflexivity.
Defined.

(* ------------------------------------------------------------------ *)
(** ** Content addressing: writing and reading back a typed object *)

Lemma bv_zb (z : Z) : 0 <= z < 256 -> bv (zb z) = z.
Proof.
  intros Hz. unfold zb, bv. rewrite Z.mod_small by lia.
  destruct (Byte.of_N (Z.to_N z)) eqn:E.
  - apply Byte.to_of_N in E. rewrite E. apply Z2N.id. lia.
  - apply Byte.of_N_None_iff in E. lia.
Qed.

Lemma digits_value_snoc (l : list byte) (c : byte) :
  digits_value (l ++ [c]) = digits_value l * 10 + (bv c - 48).
Proof. unfold digits_value. rewrite fold_left_app. reflexivity. Qed.

Lemma digits_rev_spec (fuel : nat) (z : Z) :
  0 <= z < 10 ^ Z.of_nat fuel ->
  digits_value (rev (digits_rev fuel z)) = z /\
  Forall (fun c => is_digit c = true) (digits_rev fuel z).
Proof.
  revert z. induction fuel as [|f IH]; intros z Hz.
  - cbn in Hz. assert (z = 0) by lia. subst. split; [reflexivity | constructor].
  - rewrite Nat2Z.inj_succ, Z.pow_succ_r in Hz by lia.
    assert (Hk : bv (zb (48 + z mod 10)) = 48 + z mod 10)
      by (apply bv_zb; pose proof (Z.mod_pos_bound z 10); lia).
    assert (Hd : is_digit (zb (48 + z mod 10)) = true).
    { unfold is_digit. rewrite Hk. pose proof (Z.mod_pos_bound z 10).
      apply andb_true_iff; split; apply Z.leb_le; lia. }
    cbn [digits_rev]. destruct (z <? 10) eqn:Hz10.
    + apply Z.ltb_lt in Hz10. split; [|constructor; [exact Hd | constructor]].
      unfold digits_value. cbn [rev app fold_left]. rewrite Hk, Z.mod_small by lia. lia.
    + apply Z.ltb_ge in Hz10.
      destruct (IH (z / 10)) as [Hv Hf].
      { split; [apply Z.div_pos; lia | apply Z.div_lt_upper_bound; lia]. }
      split; [|constructor; assumption].
      cbn [rev]. rewrite digits_value_snoc, Hv, Hk.
      pose proof (Z.div_mod z 10). lia.
Qed.

Lemma fmt_d_spec (z : Z) :
  0 <= z ->
  digits_value (fmt_d z) = z /\ Forall (fun c => is_digit c = true) (fmt_d z) /\ fmt_d z <> [].
Proof.
  intros Hz. unfold fmt_d.
  assert (Hb : z < 10 ^ Z.of_nat (S (Z.to_nat (Z.log2 z)))).
  { rewrite Nat2Z.inj_succ, Z2Nat.id by apply Z.log2_nonneg.
    apply Z.lt_le_trans with (2 ^ Z.succ (Z.log2 z)).
    - destruct (Z.eq_dec z 0) as [->|Hn]; [reflexivity|].
      apply Z.log2_spec. lia.
    - apply Z.pow_le_mono_l. lia. }
  destruct (digits_rev_spec _ z (conj Hz Hb)) as [Hv Hf].
  split; [exact Hv|split; [apply Forall_rev; exact Hf|]].
  cbn [digits_rev rev]. intros He. apply app_eq_nil in He. destruct He as [_ He]. discriminate.
Qed.

Lemma is_space_newline (c : byte) : is_space c = false -> is_newline c = false.
Proof.
  unfold is_space, is_newline. intros Hs. apply Z.eqb_neq. intros He. rewrite He in Hs.
  discriminate.
Qed.

Lemma is_digit_char (c : byte) :
  is_digit c = true -> is_space c = false /\ bv c <> 45 /\ bv c <> 43 /\ c <> Byte.x00.
Proof.
  unfold is_digit, is_space. intros Hd. apply andb_true_iff in Hd as [H1 H2].
  apply Z.leb_le in H1, H2. split; [|split; [lia|split; [lia|]]].
  - apply orb_false_iff. split; [apply Z.eqb_neq; lia|].
    apply andb_false_iff. right. apply Z.leb_gt. lia.
  - intros ->. cbn in H1. lia.
Qed.

Lemma take_digits_all (l : list byte) :
  Forall (fun c => is_digit c = true) l -> take_digits l = (l, []).
Proof.
  induction 1 as [|c l Hc Hl IH]; [reflexivity|]. cbn. rewrite Hc, IH. reflexivity.
Qed.

Lemma token_space (t r : list byte) (c : byte) :
  Forall (fun x => is_space x = false) t -> is_space c = true -> token (t ++ c :: r) = (t, c :: r).
Proof.
  intros Ht Hc. induction Ht as [|x t Hx Ht IH]; cbn.
  - rewrite Hc. reflexivity.
  - rewrite Hx, IH. reflexivity.
Qed.

Lemma indexByte_app (l r : list byte) (c : byte) :
  Forall (fun x => x <> c) l -> indexByte (l ++ c :: r) c = Some (length l).
Proof.
  induction 1 as [|x l Hx Hl IH]; cbn.
  - rewrite bool_decide_eq_true_2 by reflexivity. reflexivity.
  - rewrite bool_decide_eq_false_2 by exact Hx. rewrite IH. reflexivity.
Qed.

(** [Sscanf("%s %d")] on a header "<t> <digits>". *)
Lemma sscanf_s_d_header (t ds : list byte) :
  t <> [] -> Forall (fun c => is_space c = false) t ->
  ds <> [] -> Forall (fun c => is_digit c = true) ds -> 0 <= digits_value ds < 2 ^ 63 ->
  sscanf_s_d (t ++ [Byte.x20] ++ ds) = (string_of t, digits_value ds).
Proof.
  intros Ht Hts Hds Hdd Hv. unfold sscanf_s_d, scan_s.
  destruct t as [|c t']; [contradiction|].
  assert (Hc : is_space c = false) by (inversion Hts; assumption).
  cbn [app skipSpace]. rewrite (is_space_newline c Hc), Hc. cbn [obind].
  pose proof (token_space (c :: t') ds Byte.x20 Hts eq_refl) as Htk. cbn [app] in Htk.
  rewrite Htk. cbn [obind fmt_space].
  change (is_newline Byte.x20) with false. change (negb (is_space Byte.x20)) with false.
  cbn iota. destruct ds as [|d ds']; [contradiction|].
  destruct (is_digit_char d) as (Hs & H45 & H43 & _); [inversion Hdd; assumption|].
  cbn [skip_blanks]. change (is_space Byte.x20 && negb (is_newline Byte.x20)) with true.
  cbn iota. cbn [skip_blanks]. rewrite Hs. cbn [andb obind scan_d skipSpace].
  unfold scan_d. cbn [skipSpace].
  rewrite (is_space_newline d Hs), Hs. cbn [obind].
  apply Z.eqb_neq in H45, H43. rewrite H45, H43.
  rewrite take_digits_all by exact Hdd.
  rewrite Z.mul_1_l. destruct ((- 2 ^ 63 <=? digits_value (d :: ds')) && (digits_value (d :: ds') <? 2 ^ 63)) eqn:Hr.
  - reflexivity.
  - exfalso. apply andb_false_iff in Hr as [Hr|Hr]; [apply Z.leb_gt in Hr | apply Z.ltb_ge in Hr]; lia.
Qed.

Lemma object_types_header (T : string) :
  In T ["blob"; "tree"; "commit"; "tag"]%string ->
  bytes_of T <> [] /\ Forall (fun c => is_space c = false) (bytes_of T) /\
  Forall (fun x => x <> Byte.x00) (bytes_of T) /\ string_of (bytes_of T) = T.
Proof.
  intros HT. repeat (destruct HT as [<-|HT]; [repeat split; repeat constructor; discriminate|]).
  destruct HT.
Qed.

Section RoundTrip.
Context `{Zlib}.
Hypothesis unzip_zip : forall b, unzip (zip b) = Some b.

Lemma openObject_typedObject (st : store) (P : list byte) (T : string) :
  In T ["blob"; "tree"; "commit"; "tag"]%string -> Z.of_nat (length P) < 2 ^ 63 ->
  openObject (fst (writeObjectWithType st P T)) (hexDump (hash (typedObject P T))) = Ok (P, T).
Proof.
  intros HT HP. destruct (object_types_header T HT) as (Hne & Hsp & Hnul & Hstr).
  destruct (fmt_d_spec (Z.of_nat (length P))) as (Hv & Hd & Hdne); [lia|].
  unfold writeObjectWithType. rewrite writeObject_eq. cbn [fst].
  unfold openObject, readObject, splitDirFile. rewrite length_hexDump, length_hash.
  cbn [obind fst snd Nat.ltb Nat.leb Nat.sub Nat.mul Nat.add].
  rewrite lookup_insert_eq, unzip_zip. cbn [obind].
  set (ds := fmt_d (Z.of_nat (length P))) in *.
  unfold typedObject. fold ds.
  assert (Hpre : Forall (fun x => x <> Byte.x00) (bytes_of T ++ [Byte.x20] ++ ds)).
  { apply Forall_app; split; [exact Hnul|]. apply Forall_app; split.
    - constructor; [discriminate | constructor].
    - eapply Forall_impl; [exact Hd|]. intros c Hc. apply (is_digit_char c Hc). }
  replace (bytes_of T ++ [Byte.x20] ++ ds ++ [Byte.x00] ++ P)
    with ((bytes_of T ++ [Byte.x20] ++ ds) ++ Byte.x00 :: P) by (rewrite <- !app_assoc; reflexivity).
  rewrite indexByte_app by exact Hpre.
  set (L := bytes_of T ++ [Byte.x20] ++ ds).
  rewrite firstn_app, Nat.sub_diag, firstn_O, app_nil_r, firstn_all.
  unfold L at 1. rewrite sscanf_s_d_header by (assumption || lia).
  rewrite Hstr, Hv, length_app. cbn [length].
  replace (Z.of_nat (length L) + Z.of_nat (length P) + 1
             =? Z.of_nat (length L + S (length P))) with true
    by (symmetry; apply Z.eqb_eq; lia).
  cbn [negb]. rewrite skipn_app, skipn_all2 by lia.
  replace (S (length L) - length L)%nat with 1%nat by lia.
  reflexivity.
Qed.

End RoundTrip.
(** Content addressing: for a payload [P] and a type [T] among blob, tree,
    commit and tag, [writeObjectWithType] returns the SHA-1 of
    "<T> <len(P)>\0<P>", and [openObject] on the hex form of that hash in
    the resulting store gives back [(P, T)], for any compressor whose
    [unzip] inverts [zip]. *)
Theorem writeObjectWithType_roundtrip `{Zlib} (unzip_zip : forall b, unzip (zip b) = Some b)
    (st : store) (P : list byte) (T : string) :
  In T ["blob"; "tree"; "commit"; "tag"]%string -> Z.of_nat (length P) < 2 ^ 63 ->
  snd (writeObjectWithType st P T) = Ok (SHA1.sum (typedObject P T)) /\
  openObject (fst (writeObjectWithType st P T)) (hexDump (hash (typedObject P T))) = Ok (P, T).
Proof.
  intros HT HP. split.
  - unfold writeObjectWithType. rewrite writeObject_eq. reflexivity.
  - apply openObject_typedObject; assumption.
Qed.

Lemma writeObjectWithType_roundtrip_witness :
  In "blob"%string ["blob"; "tree"; "commit"; "tag"]%string /\
  Z.of_nat (length (bytes_of "hello world")) < 2 ^ 63 /\
  openObject (fst (writeObjectWithType ∅ (bytes_of "hello world") "blob"))
    (hexDump (hash (typedObject (bytes_of "hello world") "blob")))
  = Ok (bytes_of "hello world", "blob"%string).
Proof.
  assert (HT : In "blob"%string ["blob"; "tree"; "commit"; "tag"]%string) by (left; reflexivity).
  assert (HP : Z.of_nat (length (bytes_of "hello world")) < 2 ^ 63) by (vm_compute; reflexivity).
  split; [exact HT|split; [exact HP|]].
  exact (proj2 (@writeObjectWithType_roundtrip toy_zlib (fun b => eq_refl) ∅
                  (bytes_of "hello world") "blob" HT HP)).
Defined.

(* ------------------------------------------------------------------ *)
(** ** Trees: serialization and parsing *)

Lemma bytes_of_append (a b : string) : bytes_of (String.append a b) = bytes_of a ++ bytes_of b.
Proof.
  unfold bytes_of, list_byte_of_string.
  induction a as [|c a IH]; simpl;
    [reflexivity | f_equal; exact IH].
Qed.

Lemma string_of_bytes_of (s : string) : string_of (bytes_of s) = s.
Proof. apply string_of_list_byte_of_string. Qed.

Lemma parseTreeEntry_Bytes (e : TreeEntry) (rest : list byte) (spare : nat) :
  tree_entry_ok e ->
  parseTreeEntry (TreeEntry_Bytes e ++ rest) spare = Ok (e, length (TreeEntry_Bytes e)).
Proof.
  intros (Hm & Hn & Hh). destruct e as [h name mode]; cbn [te_hash te_name te_mode] in *.
  unfold parseTreeEntry, TreeEntry_Bytes. cbn [te_hash te_name te_mode].
  set (L := bytes_of mode ++ [Byte.x20] ++ bytes_of name).
  assert (Hb : (bytes_of mode ++ [Byte.x20] ++ bytes_of name ++ [Byte.x00] ++ h) ++ rest
               = L ++ Byte.x00 :: (h ++ rest)) by (unfold L; rewrite <- !app_assoc; reflexivity).
  rewrite Hb.
  assert (HL : Forall (fun x => x <> Byte.x00) L).
  { unfold L. apply Forall_app; split; [eapply Forall_impl; [exact Hm | intros c [_ Hc]; exact Hc]|].
    apply Forall_app; split; [constructor; [discriminate | constructor] | exact Hn]. }
  rewrite indexByte_app by exact HL.
  rewrite firstn_app, Nat.sub_diag, firstn_O, app_nil_r, firstn_all.
  assert (Hc : cut_space L = Some (bytes_of mode, bytes_of name)).
  { unfold cut_space, L. change ([Byte.x20] ++ bytes_of name) with (Byte.x20 :: bytes_of name).
    rewrite (indexByte_app (bytes_of mode) (bytes_of name) Byte.x20)
      by (eapply Forall_impl; [exact Hm | intros c [Hc _]; exact Hc]).
    rewrite firstn_app, Nat.sub_diag, firstn_O, app_nil_r, firstn_all.
    rewrite skipn_app, skipn_all2 by lia.
    replace (S (length (bytes_of mode)) - length (bytes_of mode))%nat with 1%nat by lia.
    reflexivity. }
  rewrite Hc.
  assert (Hsl : slice (L ++ Byte.x00 :: h ++ rest) (S (length L)) (length L + 21) = Ok h).
  { unfold slice. rewrite length_app. cbn [length]. rewrite length_app, Hh.
    replace ((S (length L) <=? length L + 21)%nat && (length L + 21 <=? length L + S (20 + length rest))%nat)
      with true by (symmetry; apply andb_true_iff; split; apply Nat.leb_le; lia).
    rewrite skipn_app, skipn_all2 by lia.
    replace (S (length L) - length L)%nat with 1%nat by lia. cbn [skipn].
    replace (length L + 21 - S (length L))%nat with (length h) by lia.
    rewrite app_nil_l, drop_0, firstn_app, Nat.sub_diag, firstn_O, app_nil_r, firstn_all.
    reflexivity. }
  rewrite (slice_spare_ok _ spare _ _ h)
    by (unfold slice_spare; cbn [repeat]; rewrite app_nil_r; exact Hsl).
  cbn [obind]. rewrite !string_of_bytes_of. f_equal. f_equal.
  unfold L. rewrite !length_app. cbn [length]. lia.
Qed.

Lemma parseTree_loop_entries (es : list TreeEntry) (spare : nat) :
  Forall tree_entry_ok es ->
  forall (fuel : nat) (b : list byte) (offset : nat) (acc : list TreeEntry),
  skipn offset b = concat (map TreeEntry_Bytes es) -> (length es <= fuel)%nat ->
  parseTree_loop fuel b spare offset acc = Ok (acc ++ es).
Proof.
  induction 1 as [|e es He Hes IH]; intros fuel b offset acc Hs Hf.
  - cbn in Hs. destruct fuel; cbn [parseTree_loop];
      (replace (offset <? length b)%nat with false
         by (symmetry; apply Nat.ltb_ge; apply length_zero_iff_nil in Hs;
             rewrite length_skipn in Hs; lia));
      cbn; rewrite app_nil_r; reflexivity.
  - cbn [map concat] in Hs.
    assert (Hlt : (offset < length b)%nat).
    { assert (length (skipn offset b) > 0)%nat.
      { rewrite Hs, length_app. unfold TreeEntry_Bytes. rewrite !length_app. cbn. lia. }
      rewrite length_skipn in H. lia. }
    destruct fuel as [|f]; [cbn in Hf; lia|].
    cbn [parseTree_loop]. replace (offset <? length b)%nat with true by (symmetry; apply Nat.ltb_lt; exact Hlt).
    cbn [negb]. unfold slice_from.
    replace (offset <=? length b)%nat with true by (symmetry; apply Nat.leb_le; lia).
    cbn [obind]. rewrite Hs, parseTreeEntry_Bytes by exact He.
    rewrite (IH f b (offset + length (TreeEntry_Bytes e))%nat (acc ++ [e])).
    + rewrite <- app_assoc. reflexivity.
    + rewrite Nat.add_comm, <- skipn_skipn, Hs, skipn_app, Nat.sub_diag, skipn_all. reflexivity.
    + cbn in Hf. lia.
Qed.

Lemma length_concat_Bytes (es : list TreeEntry) :
  (length es <= length (concat (map TreeEntry_Bytes es)))%nat.
Proof.
  induction es as [|e es IH]; cbn; [lia|]. rewrite length_app.
  assert (length (TreeEntry_Bytes e) > 0)%nat
    by (unfold TreeEntry_Bytes; rewrite !length_app; cbn [length]; lia).
  lia.
Qed.

Lemma parseTree_entries_bytes (n : Z) (es : list TreeEntry) (spare : nat) :
  0 <= n -> Forall tree_entry_ok es ->
  parseTree (bytes_of "tree " ++ fmt_d n ++ [Byte.x00] ++ concat (map TreeEntry_Bytes es)) spare = Ok es.
Proof.
  intros Hn Hes. destruct (fmt_d_spec n Hn) as (_ & Hd & _).
  unfold parseTree.
  set (hdr := bytes_of "tree " ++ fmt_d n).
  replace (bytes_of "tree " ++ fmt_d n ++ [Byte.x00] ++ concat (map TreeEntry_Bytes es))
    with (hdr ++ Byte.x00 :: concat (map TreeEntry_Bytes es)) by (unfold hdr; rewrite <- app_assoc; reflexivity).
  rewrite indexByte_app.
  - apply (parseTree_loop_entries es spare Hes).
    + rewrite skipn_app, skipn_all2 by lia. replace (S (length hdr) - length hdr)%nat with 1%nat by lia.
      reflexivity.
    + rewrite length_app. cbn. pose proof (length_concat_Bytes es). lia.
  - unfold hdr. apply Forall_app; split.
    + repeat constructor; discriminate.
    + eapply Forall_impl; [exact Hd|]. intros c Hc. apply (is_digit_char c Hc).
Qed.

(** Tree serialization round trip: [parseTree] reads back the entries of a
    tree object, whatever the size written in its header, for entries with
    a mode without space or NUL, a name without NUL and a 20-byte hash,
    whatever the unused capacity of the slice. *)
Theorem parseTree_Bytes (n : Z) (es : list TreeEntry) (spare : nat) :
  0 <= n -> Forall tree_entry_ok es ->
  parseTree (bytes_of "tree " ++ fmt_d n ++ [Byte.x00] ++ concat (map TreeEntry_Bytes es)) spare = Ok es.
Proof. exact (parseTree_entries_bytes n es spare). Qed.

Lemma parseTree_Bytes_witness :
  0 <= 3 /\ Forall tree_entry_ok
    [{| te_hash := repeat Byte.x11 20; te_name := "a b"; te_mode := "100644" |}] /\
  parseTree (bytes_of "tree " ++ fmt_d 3 ++ [Byte.x00] ++ concat (map TreeEntry_Bytes
    [{| te_hash := repeat Byte.x11 20; te_name := "a b"; te_mode := "100644" |}])) 512
  = Ok [{| te_hash := repeat Byte.x11 20; te_name := "a b"; te_mode := "100644" |}].
Proof.
  assert (Hn : 0 <= 3) by lia.
  assert (Hok : Forall tree_entry_ok
    [{| te_hash := repeat Byte.x11 20; te_name := "a b"; te_mode := "100644" |}]).
  { repeat constructor; discriminate. }
  split; [exact Hn | split; [exact Hok | exact (parseTree_Bytes 3 _ 512 Hn Hok)]].
Defined.

(* ------------------------------------------------------------------ *)
(** ** write-tree *)

Lemma string_lt_asym (a b : string) : string_lt a b = true -> string_lt b a = false.
Proof.
  unfold string_lt. intros Hab. rewrite (String.compare_antisym b a).
  destruct (String.compare a b); cbn in *; congruence.
Qed.

Lemma insert_by_name_perm (e : TreeEntry) (l : list TreeEntry) :
  Permutation (insert_by_name e l) (e :: l).
Proof.
  induction l as [|x r IH]; cbn; [reflexivity|].
  destruct (string_lt (te_name e) (te_name x)); [reflexivity|].
  rewrite IH. apply perm_swap.
Qed.

Lemma sortByName_perm (l : list TreeEntry) : Permutation (sortByName l) l.
Proof.
  unfold sortByName. cut (forall acc, Permutation (fold_left (fun acc e => insert_by_name e acc) l acc) (l ++ acc)).
  { intros Hc. rewrite Hc, app_nil_r. reflexivity. }
  induction l as [|e l IH]; intros acc; cbn; [reflexivity|].
  rewrite IH, insert_by_name_perm. apply Permutation_sym, Permutation_middle.
Qed.

Lemma insert_by_name_sorted (e : TreeEntry) (l : list TreeEntry) :
  Sorted name_le l -> Sorted name_le (insert_by_name e l).
Proof.
  induction 1 as [|x r Hr IH Hx]; cbn.
  - repeat constructor.
  - destruct (string_lt (te_name e) (te_name x)) eqn:E.
    + constructor; [constructor; assumption|]. constructor. unfold name_le.
      apply string_lt_asym. exact E.
    + constructor; [exact IH|]. destruct r as [|y r']; cbn.
      * constructor. exact E.
      * destruct (string_lt (te_name e) (te_name y)); constructor; [exact E|].
        inversion Hx; assumption.
Qed.

Lemma sortByName_sorted (l : list TreeEntry) : Sorted name_le (sortByName l).
Proof.
  unfold sortByName. cut (forall acc, Sorted name_le acc ->
    Sorted name_le (fold_left (fun acc e => insert_by_name e acc) l acc)).
  { intros Hc. apply Hc. constructor. }
  induction l as [|e l IH]; intros acc Hacc; cbn; [exact Hacc|].
  apply IH, insert_by_name_sorted, Hacc.
Qed.

Section WriteTreeFacts.
Context `{Zlib} `{Fs}.

Lemma writeTree_hash (f : nat) (st st' : store) (d : string) (h : list byte) :
  writeTree f st d = (st', Ok h) -> length h = 20%nat.
Proof.
  intros E. destruct f as [|f]; cbn [writeTree] in E; [discriminate E|].
  destruct (readDir d) as [des|]; [|discriminate E].
  destruct (writeTree_dirs _ st d des []) as [st1 [r1| | |]]; [|discriminate E..].
  destruct (writeTree_files st1 d des r1) as [st2 [r2| | |]]; [|discriminate E..].
  rewrite writeObject_eq in E. apply (f_equal snd) in E. cbn [snd] in E.
  assert (Hh : h = hash (treeData r2)) by congruence. rewrite Hh. apply length_hash.
Qed.

Lemma mode_tree_ok : Forall (fun c => c <> Byte.x20 /\ c <> Byte.x00) (bytes_of TreeEntryModeTree).
Proof. repeat constructor; discriminate. Qed.

Lemma mode_blob_ok : Forall (fun c => c <> Byte.x20 /\ c <> Byte.x00) (bytes_of TreeEntryModeBlob).
Proof. repeat constructor; discriminate. Qed.

Lemma writeTree_dirs_ok (wt' : store -> string -> store * outcome (list byte))
    (Hw : forall st d st' h, wt' st d = (st', Ok h) -> length h = 20%nat)
    (dir : string) (des : list DirEntry) :
  Forall name_no_nul des ->
  forall st st' acc res, writeTree_dirs wt' st dir des acc = (st', Ok res) ->
  exists new, res = acc ++ new /\
    map (fun e => (te_name e, te_mode e)) new
    = map (fun de => (de_name de, TreeEntryModeTree))
        (List.filter (fun de => negb (String.eqb (join dir (de_name de)) ".git" || negb (de_isDir de))) des) /\
    Forall tree_entry_ok new.
Proof.
  induction 1 as [|de des Hde Hdes IH]; intros st st' acc res E; cbn [writeTree_dirs] in E.
  - injection E as _ <-. exists []. rewrite app_nil_r. repeat split; constructor.
  - cbn [List.filter].
    destruct (String.eqb (join dir (de_name de)) ".git" || negb (de_isDir de)) eqn:Hc; cbn [negb].
    + exact (IH _ _ _ _ E).
    + destruct (wt' st (join dir (de_name de))) as [st1 r] eqn:Ew.
      destruct r as [h| | |]; [|discriminate E..].
      destruct (IH _ _ _ _ E) as (new & -> & Hm & Hf).
      eexists. split; [rewrite <- app_assoc; reflexivity|]. split.
      * cbn. f_equal. exact Hm.
      * constructor; [|exact Hf]. split; [exact mode_tree_ok | split; [exact Hde | exact (Hw _ _ _ _ Ew)]].
Qed.

Lemma writeTree_files_ok (dir : string) (des : list DirEntry) :
  Forall name_no_nul des ->
  forall st st' acc res, writeTree_files st dir des acc = (st', Ok res) ->
  exists new, res = acc ++ new /\
    map (fun e => (te_name e, te_mode e)) new
    = map (fun de => (de_name de, TreeEntryModeBlob)) (List.filter (fun de => negb (de_isDir de)) des) /\
    Forall tree_entry_ok new /\
    Forall (fun e => exists c, readFile (join dir (te_name e)) = Some c /\
                               te_hash e = hash (blobObject c)) new.
Proof.
  induction 1 as [|de des Hde Hdes IH]; intros st st' acc res E; cbn [writeTree_files] in E.
  - injection E as _ <-. exists []. rewrite app_nil_r. repeat split; constructor.
  - cbn [List.filter]. destruct (de_isDir de) eqn:Hd; cbn [negb].
    + exact (IH _ _ _ _ E).
    + unfold writeBlob in E. destruct (readFile (join dir (de_name de))) as [c|] eqn:Hr;
        [|discriminate E].
      rewrite writeObject_eq in E.
      destruct (IH _ _ _ _ E) as (new & -> & Hm & Hf & Hh).
      eexists. split; [rewrite <- app_assoc; reflexivity|]. split; [cbn; f_equal; exact Hm|].
      split; (constructor; [|assumption]).
      * split; [exact mode_blob_ok | split; [exact Hde | apply length_hash]].
      * exists c. split; [exact Hr | reflexivity].
Qed.

End WriteTreeFacts.

(** write-tree, then ls-tree: when [writeTree] succeeds on a directory
    whose names contain no NUL, [readTree] of the returned hash in the
    resulting store lists one entry per subdirectory other than .git
    (mode 40000) and one per other entry (mode 100644), ordered by name;
    the hash of a file entry is the hash of the blob of that file's
    content. *)
Theorem writeTree_readTree `{Zlib} `{Fs} (unzip_zip : forall b, unzip (zip b) = Some b)
    (f : nat) (st st' : store) (dir : string) (h : list byte) (des : list DirEntry) :
  readDir dir = Some des -> Forall name_no_nul des ->
  writeTree (S f) st dir = (st', Ok h) ->
  exists es, readTree st' (hexDump h) = Ok es /\
    Sorted name_le es /\
    Permutation (map (fun e => (te_name e, te_mode e)) es)
      (map (fun de => (de_name de, TreeEntryModeTree))
         (List.filter (fun de => negb (String.eqb (join dir (de_name de)) ".git" || negb (de_isDir de))) des)
       ++ map (fun de => (de_name de, TreeEntryModeBlob)) (List.filter (fun de => negb (de_isDir de)) des)) /\
    Forall (fun e => te_mode e = TreeEntryModeBlob ->
              exists c, readFile (join dir (te_name e)) = Some c /\ te_hash e = hash (blobObject c)) es.
Proof.
  intros Hrd Hn E. cbn [writeTree] in E. rewrite Hrd in E.
  destruct (writeTree_dirs _ st dir des []) as [st1 [r1| | |]] eqn:E1; [|discriminate E..].
  destruct (writeTree_files st1 dir des r1) as [st2 [r2| | |]] eqn:E2; [|discriminate E..].
  rewrite writeObject_eq in E. apply pair_equal_spec in E as [Es Eh]. subst st'.
  assert (Hh : h = hash (treeData r2)) by congruence. subst h.
  destruct (writeTree_dirs_ok _ (fun st d st' h => writeTree_hash f st st' d h) dir des Hn _ _ _ _ E1)
    as (nd & -> & Hmd & Hfd).
  destruct (writeTree_files_ok dir des Hn _ _ _ _ E2) as (nf & -> & Hmf & Hff & Hhf).
  cbn [app] in *.
  exists (sortByName (nd ++ nf)). split; [|split; [|split]].
  - unfold readTree, readObject, splitDirFile. rewrite length_hexDump, length_hash.
    cbn [obind fst snd Nat.ltb Nat.leb Nat.sub Nat.mul Nat.add].
    rewrite lookup_insert_eq, unzip_zip. cbn [obind].
    unfold treeData. apply parseTree_entries_bytes; [lia|].
    apply List.Forall_forall. intros e He. apply (Permutation_in _ (sortByName_perm _)) in He.
    apply in_app_or in He as [He|He]; revert e He; apply List.Forall_forall; assumption.
  - apply sortByName_sorted.
  - rewrite (Permutation_map _ (sortByName_perm _)), map_app, Hmd, Hmf. reflexivity.
  - apply List.Forall_forall. intros e He Hm. apply (Permutation_in _ (sortByName_perm _)) in He.
    apply in_app_or in He as [He|He].
    + exfalso. assert (Hin : In (te_name e, te_mode e) (map (fun e => (te_name e, te_mode e)) nd))
        by (apply in_map_iff; exists e; split; [reflexivity | exact He]).
      rewrite Hmd in Hin. apply in_map_iff in Hin as (de & Hde & _).
      injection Hde as _ Hmode. rewrite Hm in Hmode. discriminate.
    + rewrite List.Forall_forall in Hhf. exact (Hhf e He).
Qed.

Lemma writeTree_readTree_witness :
  @readDir sample_fs "." = Some sample_root /\ Forall name_no_nul sample_root /\
  @writeTree toy_zlib sample_fs 3 ∅ "." = (fst (@writeTree toy_zlib sample_fs 3 ∅ "."), Ok sample_tree_hash) /\
  exists es, @readTree toy_zlib (fst (@writeTree toy_zlib sample_fs 3 ∅ ".")) (hexDump sample_tree_hash) = Ok es /\
    Sorted name_le es /\
    Permutation (map (fun e => (te_name e, te_mode e)) es)
      (map (fun de => (de_name de, TreeEntryModeTree))
         (List.filter (fun de => negb (String.eqb (join "." (de_name de)) ".git" || negb (de_isDir de))) sample_root)
       ++ map (fun de => (de_name de, TreeEntryModeBlob)) (List.filter (fun de => negb (de_isDir de)) sample_root)) /\
    Forall (fun e => te_mode e = TreeEntryModeBlob ->
              exists c, @readFile sample_fs (join "." (te_name e)) = Some c /\ te_hash e = hash (blobObject c)) es.
Proof.
  assert (Hd : @readDir sample_fs "." = Some sample_root) by reflexivity.
  assert (Hn : Forall name_no_nul sample_root) by (repeat constructor; discriminate).
  assert (Hw : @writeTree toy_zlib sample_fs 3 ∅ "." = (fst (@writeTree toy_zlib sample_fs 3 ∅ "."), Ok sample_tree_hash))
    by (assert (Hs : snd (@writeTree toy_zlib sample_fs 3 ∅ ".") = Ok sample_tree_hash)
          by (vm_compute; reflexivity);
        rewrite <- Hs; apply surjective_pairing).
  split; [exact Hd|]. split; [exact Hn|]. split; [exact Hw|].
  exact (@writeTree_readTree toy_zlib sample_fs (fun b => eq_refl) 2 ∅ _ "." _ sample_root Hd Hn Hw).
Defined.
(* ------------------------------------------------------------------ *)
(** ** hash-object and cat-file *)

Lemma fmt_d_no_nul (z : Z) : 0 <= z -> Forall (fun c => c <> Byte.x00) (fmt_d z).
Proof.
  intros Hz. destruct (fmt_d_spec z Hz) as (_ & Hd & _).
  eapply Forall_impl; [exact Hd|]. intros c Hc. apply (is_digit_char c Hc).
Qed.

Lemma blobObject_index (c : list byte) :
  indexByte (blobObject c) Byte.x00 = Some (length (bytes_of "blob " ++ fmt_d (Z.of_nat (length c)))).
Proof.
  unfold blobObject. rewrite app_assoc. apply indexByte_app.
  apply Forall_app. split; [repeat constructor; discriminate | apply fmt_d_no_nul; lia].
Qed.

Section BlobFacts.
Context `{Zlib}.
Hypothesis unzip_zip : forall b, unzip (zip b) = Some b.

Lemma readObject_writeObject (st : store) (d : list byte) :
  readObject (fst (writeObject st d)) (hexDump (hash d)) = Ok d.
Proof.
  rewrite writeObject_eq. cbn [fst]. unfold readObject, splitDirFile.
  rewrite length_hexDump, length_hash.
  cbn [obind fst snd Nat.ltb Nat.leb Nat.sub Nat.mul Nat.add].
  rewrite lookup_insert_eq, unzip_zip. reflexivity.
Qed.

End BlobFacts.

(** hash-object -w, then cat-file -p: when [writeBlob] of a path whose
    file reads as [c] succeeds with hash [h], [readBlobContent] of
    [hexDump h] in the resulting store gives [c] back as a string, and [h]
    is the SHA-1 of the blob object of [c]. *)
Theorem writeBlob_readBlobContent `{Zlib} `{Fs} (unzip_zip : forall b, unzip (zip b) = Some b)
    (st st' : store) (p : string) (c h : list byte) :
  readFile p = Some c -> writeBlob st p = (st', Ok h) ->
  h = hash (blobObject c) /\ readBlobContent st' (hexDump h) = Ok (string_of c).
Proof.
  intros Hr E. unfold writeBlob in E. rewrite Hr in E.
  assert (Hs : st' = fst (writeObject st (blobObject c))) by (rewrite E; reflexivity).
  assert (Hh : h = hash (blobObject c)).
  { rewrite writeObject_eq in E. apply (f_equal snd) in E. cbn [snd] in E. congruence. }
  split; [exact Hh|]. subst st' h.
  unfold readBlobContent. rewrite (readObject_writeObject unzip_zip). cbn [obind].
  unfold parseBlobContent. rewrite blobObject_index.
  set (L := bytes_of "blob " ++ fmt_d (Z.of_nat (length c))).
  assert (Hb : blobObject c = (L ++ [Byte.x00]) ++ c)
    by (unfold blobObject, L; rewrite <- !app_assoc; reflexivity).
  rewrite Hb. replace (S (length L)) with (length (L ++ [Byte.x00])) by (rewrite length_app; cbn; lia).
  rewrite skipn_app, skipn_all, Nat.sub_diag.
  reflexivity.
Qed.

(** cat-file -p on any stored object: [readBlobContent] of the hash of
    data stored with [writeObject] gives the bytes after the first NUL of
    that data, whatever its type, and the error "error on extracting blob
    file: cannot extract blob content" when the data has no NUL. *)
Theorem readBlobContent_writeObject `{Zlib} (unzip_zip : forall b, unzip (zip b) = Some b)
    (st : store) (d : list byte) :
  readBlobContent (fst (writeObject st d)) (hexDump (hash d)) =
  match indexByte d Byte.x00 with
  | Some i => Ok (string_of (skipn (S i) d))
  | None => Err "error on extracting blob file: cannot extract blob content"
  end.
Proof.
  unfold readBlobContent. rewrite (readObject_writeObject unzip_zip). cbn [obind].
  unfold parseBlobContent. destruct (indexByte d Byte.x00); reflexivity.
Qed.

Lemma readBlobContent_writeObject_witness :
  readBlobContent (fst (writeObject ∅ (treeData [sample_entry]))) (hexDump (hash (treeData [sample_entry]))) =
  match indexByte (treeData [sample_entry]) Byte.x00 with
  | Some i => Ok (string_of (skipn (S i) (treeData [sample_entry])))
  | None => Err "error on extracting blob file: cannot extract blob content"
  end.
Proof. exact (@readBlobContent_writeObject toy_zlib (fun b => eq_refl) ∅ (treeData [sample_entry])). Defined.

Lemma writeBlob_readBlobContent_witness :
  @readFile sample_fs "a.txt" = Some (bytes_of "ay") /\
  @writeBlob toy_zlib sample_fs ∅ "a.txt"
    = (fst (@writeBlob toy_zlib sample_fs ∅ "a.txt"), Ok (hash (blobObject (bytes_of "ay")))) /\
  hash (blobObject (bytes_of "ay")) = hash (blobObject (bytes_of "ay")) /\
  readBlobContent (fst (@writeBlob toy_zlib sample_fs ∅ "a.txt")) (hexDump (hash (blobObject (bytes_of "ay"))))
    = Ok (string_of (bytes_of "ay")).
Proof.
  assert (Hr : @readFile sample_fs "a.txt" = Some (bytes_of "ay")) by reflexivity.
  assert (Hw : @writeBlob toy_zlib sample_fs ∅ "a.txt"
    = (fst (@writeBlob toy_zlib sample_fs ∅ "a.txt"), Ok (hash (blobObject (bytes_of "ay")))))
    by (assert (Hs : snd (@writeBlob toy_zlib sample_fs ∅ "a.txt") = Ok (hash (blobObject (bytes_of "ay"))))
          by (vm_compute; reflexivity);
        rewrite <- Hs; apply surjective_pairing).
  split; [exact Hr|]. split; [exact Hw|].
  exact (@writeBlob_readBlobContent toy_zlib sample_fs (fun b => eq_refl) ∅ _ "a.txt" _ _ Hr Hw).
Defined.

(* ------------------------------------------------------------------ *)
(** ** commit-tree *)

Lemma commitTreeFlags_pairs (pairs : list (string * string)) (tl : list string) (p m : string) :
  (length tl <= 1)%nat ->
  commitTreeFlags (concat (map (fun fv => [fst fv; snd fv]) pairs) ++ tl) p m
  = (last_value "-p" pairs p, last_value "-m" pairs m).
Proof.
  intros Htl. revert p m. induction pairs as [|[f v] pairs IH]; intros p m.
  - destruct tl as [|x [|y r]]; [reflexivity | reflexivity | cbn in Htl; lia].
  - cbn [map concat app commitTreeFlags fst snd].
    unfold last_value. cbn [fold_left fst snd]. fold (last_value "-p" pairs) (last_value "-m" pairs).
    destruct (String.eqb f "-p") eqn:Ep.
    + apply String.eqb_eq in Ep. subst f. cbn. apply IH.
    + destruct (String.eqb f "-m") eqn:Em; apply IH.
Qed.

(** commit-tree's arguments: after the tree, the arguments are read as
    (flag, value) pairs, a last unpaired argument being ignored; the
    parent is the value of the last "-p" pair and the message the value
    of the last "-m" pair (empty if there is none), other flags are
    skipped, and a value is never read as a flag. *)
Theorem commitTreeCommit_flags (a0 a1 tree : string) (pairs : list (string * string)) (tl : list string) :
  (length tl <= 1)%nat ->
  commitTreeCommit (a0 :: a1 :: tree :: concat (map (fun fv => [fst fv; snd fv]) pairs) ++ tl)
  = Ok {| treeObject := tree; parentObject := last_value "-p" pairs ""; author := scott;
          committer := scott; message := last_value "-m" pairs "" |}.
Proof.
  intros Htl. unfold commitTreeCommit. rewrite (commitTreeFlags_pairs pairs tl "" "" Htl). reflexivity.
Qed.

Lemma commitTreeCommit_flags_witness :
  (length ["-m"] <= 1)%nat /\
  commitTreeCommit ("mygit" :: "commit-tree" :: "t" ::
      concat (map (fun fv => [fst fv; snd fv]) [("-p", "a"); ("-m", "-p"); ("-x", "y"); ("-p", "b")]) ++ ["-m"])
  = Ok {| treeObject := "t"; parentObject := last_value "-p" [("-p", "a"); ("-m", "-p"); ("-x", "y"); ("-p", "b")] "";
          author := scott; committer := scott;
          message := last_value "-m" [("-p", "a"); ("-m", "-p"); ("-x", "y"); ("-p", "b")] "" |}.
Proof.
  assert (Hl : (length ["-m"] <= 1)%nat) by (cbn; lia).
  split; [exact Hl|]. exact (commitTreeCommit_flags "mygit" "commit-tree" "t" _ ["-m"] Hl).
Defined.

(* ------------------------------------------------------------------ *)
(** ** Pack varints *)

Lemma testbit7 (a : Z) : 0 <= a -> Z.b2z (Z.testbit a 7) = a / 128 mod 2.
Proof. intros Ha. apply (Z.testbit_spec' a 7). lia. Qed.

Lemma zb_last (m : Z) : 0 <= m < 128 ->
  (Z.land (bv (zb m)) 128 =? 0) = true /\ Z.land (bv (zb m)) 127 = m.
Proof.
  intros Hm. rewrite land128_testbit, bv_zb by lia. split.
  - pose proof (testbit7 m ltac:(lia)) as Ht. rewrite Z.div_small in Ht by lia.
    destruct (Z.testbit m 7); [discriminate Ht | reflexivity].
  - change 127 with (Z.ones 7). rewrite Z.land_ones by lia. apply Z.mod_small. lia.
Qed.

Lemma zb_more (r : Z) : 0 <= r < 128 ->
  (Z.land (bv (zb (128 + r))) 128 =? 0) = false /\ Z.land (bv (zb (128 + r))) 127 = r.
Proof.
  intros Hr. rewrite land128_testbit, bv_zb by lia. split.
  - pose proof (testbit7 (128 + r) ltac:(lia)) as Ht.
    replace ((128 + r) / 128) with 1 in Ht
      by (apply Z.div_unique with r; lia).
    destruct (Z.testbit (128 + r) 7); [reflexivity | discriminate Ht].
  - change 127 with (Z.ones 7). rewrite Z.land_ones by lia.
    replace (128 + r) with (r + 1 * 2 ^ 7) by lia. rewrite Z_mod_plus_full.
    apply Z.mod_small. lia.
Qed.

Lemma varint_loop_bytes (msg : string) (f k : nat) (m : Z) (rest : list byte) (d : byte)
    (used : nat) (size shift : Z) :
  (Z.land (bv d) 128 =? 0) = false -> (1 <= k <= f)%nat ->
  0 <= m < 2 ^ (7 * Z.of_nat k) -> 0 <= shift -> shift + 7 * (Z.of_nat k - 1) < 64 ->
  0 <= size -> size + m * 2 ^ shift < 2 ^ 64 ->
  varint_loop msg (varint_bytes f m ++ rest) d used size shift
  = Ok (size + m * 2 ^ shift, (used + length (varint_bytes f m))%nat).
Proof.
  revert k m d used size shift.
  induction f as [|f IH]; intros k m d used size shift Hd Hk Hm Hs Hsk Hz Hb; [lia|].
  cbn [varint_bytes]. destruct (m <? 128) eqn:Em.
  - apply Z.ltb_lt in Em. destruct (zb_last m ltac:(lia)) as [H1 H2].
    cbn [app varint_loop]. rewrite Hd.
    replace (64 <=? shift) with false by (symmetry; apply Z.leb_gt; lia).
    rewrite H2, Z.shiftl_mul_pow2 by lia.
    destruct rest as [|x rest]; cbn [varint_loop]; rewrite H1; unfold u64;
      (rewrite Z.mod_small by nia; cbn [length]; f_equal; f_equal; lia).
  - apply Z.ltb_ge in Em.
    assert (Hk2 : (2 <= k)%nat).
    { destruct (Nat.le_gt_cases 2 k) as [|Hk1]; [assumption|].
      assert (k = 1%nat) by lia. subst k. cbn in Hm. lia. }
    pose proof (Z.mod_pos_bound m 128 ltac:(lia)) as Hr.
    destruct (zb_more (m mod 128) Hr) as [H1 H2].
    pose proof (Z.div_mod m 128 ltac:(lia)) as Hdm.
    cbn [app varint_loop]. rewrite Hd.
    replace (64 <=? shift) with false by (symmetry; apply Z.leb_gt; lia).
    rewrite H2, Z.shiftl_mul_pow2 by lia. unfold u64.
    assert (Hp : 2 ^ (shift + 7) = 2 ^ shift * 128) by (rewrite Z.pow_add_r by lia; reflexivity).
    assert (Hq : 0 <= m / 128) by (apply Z.div_pos; lia).
    assert (Hpos : 0 < 2 ^ shift) by (apply Z.pow_pos_nonneg; lia).
    assert (Hle : m mod 128 * 2 ^ shift <= m * 2 ^ shift) by (apply Z.mul_le_mono_nonneg_r; lia).
    rewrite (Z.mod_small (size + _)) by nia.
    rewrite (IH (k - 1)%nat (m / 128)); [| exact H1 | lia | | lia | | nia | ].
    + cbn [length]. f_equal. f_equal; [|lia]. rewrite Hp. nia.
    + split; [exact Hq|]. apply Z.div_lt_upper_bound; [lia|].
      replace (7 * Z.of_nat k) with (7 * Z.of_nat (k - 1) + 7) in Hm by lia.
      rewrite Z.pow_add_r in Hm by lia. lia.
    + lia.
    + rewrite Hp. set (q := m / 128) in *. set (r := m mod 128) in *. rewrite Hdm in Hb. nia.
Qed.

Lemma header_byte_fields (c t r : Z) :
  0 <= c < 2 -> 0 <= t < 8 -> 0 <= r < 16 ->
  let v := bv (zb (128 * c + 16 * t + r)) in
  (Z.land v 128 =? 0) = (c =? 0) /\ Z.land (Z.shiftr v 4) 7 = t /\ Z.land v 15 = r.
Proof.
  intros Hc Ht Hr v. subst v. split; [|split; rewrite bv_zb by lia].
  - rewrite land128_testbit, bv_zb by lia.
    pose proof (testbit7 (128 * c + 16 * t + r) ltac:(lia)) as Hb.
    replace ((128 * c + 16 * t + r) / 128) with c in Hb
      by (apply Z.div_unique with (16 * t + r); lia).
    assert (c = 0 \/ c = 1) as [-> | ->] by lia;
      destruct (Z.testbit (128 * _ + 16 * t + r) 7); try discriminate Hb; reflexivity.
  - rewrite Z.shiftr_div_pow2 by lia. change 7 with (Z.ones 3). rewrite Z.land_ones by lia.
    replace ((128 * c + 16 * t + r) / 2 ^ 4) with (t + c * 2 ^ 3)
      by (apply Z.div_unique with r; lia).
    rewrite Z_mod_plus_full. apply Z.mod_small. lia.
  - change 15 with (Z.ones 4). rewrite Z.land_ones by lia.
    replace (128 * c + 16 * t + r) with (r + (8 * c + t) * 2 ^ 4) by lia.
    rewrite Z_mod_plus_full. apply Z.mod_small. lia.
Qed.

(** readSize: the size varint of git's pack format, followed by any
    bytes, decodes to its value, for every value of 64 bits; the bytes
    used are those of the varint. *)
Theorem readSize_varint (n : Z) (rest : list byte) :
  0 <= n < 2 ^ 64 ->
  readSize (varint_bytes 10 n ++ rest) = Ok (n, length (varint_bytes 10 n)).
Proof.
  intros Hn. unfold readSize, index. cbn [varint_bytes]. destruct (n <? 128) eqn:En.
  - apply Z.ltb_lt in En. destruct (zb_last n ltac:(lia)) as [H1 H2].
    cbn [app nth_error obind skipn]. rewrite drop_0, H2.
    destruct rest as [|x rest]; cbn [varint_loop]; rewrite H1; reflexivity.
  - apply Z.ltb_ge in En. pose proof (Z.mod_pos_bound n 128 ltac:(lia)) as Hr.
    destruct (zb_more (n mod 128) Hr) as [H1 H2].
    pose proof (Z.div_mod n 128 ltac:(lia)) as Hdm.
    cbn [app nth_error obind skipn]. rewrite drop_0, H2.
    rewrite (varint_loop_bytes _ 9 9 (n / 128)); [| exact H1 | lia | | lia | cbn; lia | lia | ].
    + cbn [length]. f_equal. f_equal; change (2 ^ 7) with 128 in *; lia.
    + split; [apply Z.div_pos; lia|]. apply Z.div_lt_upper_bound; [lia|]. cbn. lia.
    + change (2 ^ 7) with 128. lia.
Qed.

Lemma readObjectHeader_header_ok (t n : Z) (rest : list byte) :
  0 <= t < 8 -> 0 <= n < 2 ^ 64 ->
  readObjectHeader (pack_object_header t n ++ rest) = Ok (n, t, length (pack_object_header t n)).
Proof.
  intros Ht Hn. unfold readObjectHeader, pack_object_header, index. destruct (n <? 16) eqn:En.
  - apply Z.ltb_lt in En.
    destruct (header_byte_fields 0 t n ltac:(lia) Ht ltac:(lia)) as (H1 & H2 & H3).
    replace (128 * 0 + 16 * t + n) with (t * 16 + n) in H1, H2, H3 by lia.
    cbn [app nth_error obind skipn]. rewrite drop_0, H2, H3.
    destruct rest as [|x rest]; cbn [varint_loop]; rewrite H1; reflexivity.
  - apply Z.ltb_ge in En. pose proof (Z.mod_pos_bound n 16 ltac:(lia)) as Hr.
    destruct (header_byte_fields 1 t (n mod 16) ltac:(lia) Ht Hr) as (H1 & H2 & H3).
    replace (128 * 1 + 16 * t + n mod 16) with (128 + t * 16 + n mod 16) in H1, H2, H3 by lia.
    pose proof (Z.div_mod n 16 ltac:(lia)) as Hdm.
    cbn [app nth_error obind skipn]. rewrite drop_0, H2, H3.
    rewrite (varint_loop_bytes _ 10 9 (n / 16)); [| exact H1 | lia | | lia | cbn; lia | lia | ].
    + cbn [length fst snd obind]. repeat f_equal; change (2 ^ 4) with 16 in *; lia.
    + split; [apply Z.div_pos; lia|]. apply Z.div_lt_upper_bound; [lia|]. cbn. lia.
    + change (2 ^ 4) with 16. lia.
Qed.

(** readObjectHeader: the header of a pack object of type [t] (0-7) and
    size [n] (64 bits), followed by any bytes, decodes to [(n, t)]; the
    bytes used are those of the header. *)
Theorem readObjectHeader_pack_object_header (t n : Z) (rest : list byte) :
  0 <= t < 8 -> 0 <= n < 2 ^ 64 ->
  readObjectHeader (pack_object_header t n ++ rest) = Ok (n, t, length (pack_object_header t n)).
Proof. exact (readObjectHeader_header_ok t n rest). Qed.

Lemma readSize_varint_witness :
  0 <= 300 < 2 ^ 64 /\ readSize (varint_bytes 10 300 ++ [Byte.x05]) = Ok (300, length (varint_bytes 10 300)).
Proof.
  assert (Hn : 0 <= 300 < 2 ^ 64) by lia.
  split; [exact Hn | exact (readSize_varint 300 [Byte.x05] Hn)].
Defined.

Lemma readObjectHeader_pack_object_header_witness :
  0 <= 3 < 8 /\ 0 <= 1000 < 2 ^ 64 /\
  readObjectHeader (pack_object_header 3 1000 ++ [Byte.x78; Byte.x9c])
  = Ok (1000, 3, length (pack_object_header 3 1000)).
Proof.
  assert (Ht : 0 <= 3 < 8) by lia. assert (Hn : 0 <= 1000 < 2 ^ 64) by lia.
  split; [exact Ht|]. split; [exact Hn|].
  exact (readObjectHeader_pack_object_header 3 1000 [Byte.x78; Byte.x9c] Ht Hn).
Defined.

(* ------------------------------------------------------------------ *)
(** ** The pkt-line loop of [getPackfile] *)

Lemma length_pkt_frame (p : list byte) : (4 <= length (pkt_frame p))%nat.
Proof. destruct p; cbn; lia. Qed.

Lemma readPktLines_frames_acc (ps : list (list byte)) :
  Forall (fun p => Z.of_nat (length p) <= 65516) ps ->
  forall (f : nat) (spare : nat) (acc : list (list byte)), (length ps <= f)%nat ->
  readPktLines f (concat (map pkt_frame ps)) spare acc = Ok (acc ++ map strip_newline ps).
Proof.
  induction 1 as [|p ps Hp Hps IH]; intros f spare acc Hf.
  - destruct f; cbn; rewrite app_nil_r; reflexivity.
  - destruct f as [|f]; [cbn in Hf; lia|]. cbn [map concat].
    pose proof (length_pkt_frame p) as Hl.
    destruct (pkt_frame p ++ concat (map pkt_frame ps)) as [|x D] eqn:ED.
    { apply (f_equal (@length byte)) in ED. rewrite length_app in ED. cbn in ED. lia. }
    cbn [readPktLines]. rewrite <- ED, readPktLine_pkt_frame by exact Hp.
    assert (Hlen : length (pkt_frame p) = match p with [] => 4%nat | _ => (length p + 4)%nat end)
      by (destruct p; [reflexivity | cbn; lia]).
    assert (Hs : strip_newline p = match p with [] => [] | _ => strip_newline p end)
      by (destruct p; reflexivity).
    replace (let? r := match p with [] => Ok (4%nat, []) | _ => Ok ((length p + 4)%nat, strip_newline p) end in
             let? discovery := slice_from (pkt_frame p ++ concat (map pkt_frame ps)) (fst r) in
             readPktLines f discovery spare (acc ++ [snd r]))
      with (let? discovery := slice_from (pkt_frame p ++ concat (map pkt_frame ps)) (length (pkt_frame p)) in
            readPktLines f discovery spare (acc ++ [strip_newline p]))
      by (rewrite Hlen; destruct p; reflexivity).
    unfold slice_from. rewrite length_app.
    replace (length (pkt_frame p) <=? length (pkt_frame p) + length (concat (map pkt_frame ps)))%nat
      with true by (symmetry; apply Nat.leb_le; lia).
    cbn [obind]. rewrite drop_app_length, IH by (cbn in Hf; lia).
    rewrite <- app_assoc. reflexivity.
Qed.

Lemma length_concat_pkt_frames (ps : list (list byte)) :
  (length ps <= length (concat (map pkt_frame ps)))%nat.
Proof.
  induction ps as [|p ps IH]; cbn; [lia|]. rewrite length_app. pose proof (length_pkt_frame p). lia.
Qed.

(** The loop over the discovery body in [getPackfile]: a body made of the
    frames of payloads [ps], each of length at most 65516, gives the
    payloads in order, each without its trailing newline, a flush packet
    giving the empty line, whatever the unused capacity of the buffer. *)
Theorem readPktLines_frames (ps : list (list byte)) (spare : nat) :
  Forall (fun p => Z.of_nat (length p) <= 65516) ps ->
  readPktLines (length (concat (map pkt_frame ps))) (concat (map pkt_frame ps)) spare []
  = Ok (map strip_newline ps).
Proof.
  intros Hps. rewrite (readPktLines_frames_acc ps Hps _ spare []) by apply length_concat_pkt_frames.
  reflexivity.
Qed.

Lemma readPktLines_frames_witness :
  Forall (fun p => Z.of_nat (length p) <= 65516) [bytes_of "# service=git-upload-pack"; []; bytes_of "ab refs/heads/master"] /\
  readPktLines (length (concat (map pkt_frame [bytes_of "# service=git-upload-pack"; []; bytes_of "ab refs/heads/master"])))
    (concat (map pkt_frame [bytes_of "# service=git-upload-pack"; []; bytes_of "ab refs/heads/master"])) 512 []
  = Ok (map strip_newline [bytes_of "# service=git-upload-pack"; []; bytes_of "ab refs/heads/master"]).
Proof.
  assert (H : Forall (fun p => Z.of_nat (length p) <= 65516)
                [bytes_of "# service=git-upload-pack"; []; bytes_of "ab refs/heads/master"])
    by (repeat constructor; cbn; lia).
  split; [exact H | exact (readPktLines_frames _ 512 H)].
Defined.

(* ------------------------------------------------------------------ *)
(** ** checkoutCommit on a stored object *)

(** The unused capacity of an object read back is that of the buffer
    [unzip] makes for the stored bytes. *)
Lemma objectSpare_writeObjectWithType `{Zlib} (st : store) (P : list byte) (T : string) :
  objectSpare (fst (writeObjectWithType st P T)) (hexDump (hash (typedObject P T)))
  = unzip_spare (zip (typedObject P T)).
Proof.
  unfold writeObjectWithType. rewrite writeObject_eq. cbn [fst].
  unfold objectSpare, splitDirFile. rewrite length_hexDump, length_hash.
  cbn [obind fst snd Nat.ltb Nat.leb Nat.sub Nat.mul Nat.add].
  rewrite lookup_insert_eq. reflexivity.
Qed.

(** checkoutCommit on an object stored by [writeObjectWithType] with body
    [P] and type [T]: an object other than a commit is refused with
    "object not a commit"; for a commit, the tree checked out in "." is
    the one named by bytes 5 to 45 of the body (the "tree " prefix is not
    checked). [commit[5:45]] is checked against the capacity of the
    buffer [unzip] read the object into, so bytes past the end of a short
    body are the zero bytes of its unused capacity [sp]; only when the
    body and that capacity together are shorter than 45 bytes does the
    program panic. *)
Theorem checkoutCommit_stored `{Zlib} `{Worktree} (unzip_zip : forall b, unzip (zip b) = Some b)
    (fuel : nat) (w : wt) (st : store) (P : list byte) (T : string) :
  In T ["blob"; "tree"; "commit"; "tag"]%string -> Z.of_nat (length P) < 2 ^ 63 ->
  let st' := fst (writeObjectWithType st P T) in
  checkoutCommit fuel w st' (hexDump (hash (typedObject P T)))
  = let sp := unzip_spare (zip (typedObject P T)) in
    if negb (String.eqb T "commit") then (w, Err "object not a commit")
    else if (45 <=? length P + sp)%nat
    then checkoutTree fuel w st' (string_of (firstn 40 (skipn 5 (P ++ repeat Byte.x00 sp)))) "."
    else (w, Panic "slice bounds out of range").
Proof.
  intros HT HP st'. unfold checkoutCommit. subst st'.
  rewrite (openObject_typedObject unzip_zip st P T HT HP).
  destruct (negb (String.eqb T "commit")); [reflexivity|].
  rewrite objectSpare_writeObjectWithType.
  unfold slice_spare, slice. rewrite length_app, repeat_length.
  destruct (45 <=? length P + unzip_spare (zip (typedObject P T)))%nat; reflexivity.
Qed.

Lemma checkoutCommit_stored_witness :
  In "commit"%string ["blob"; "tree"; "commit"; "tag"]%string /\
  Z.of_nat (length (bytes_of "tree ")) < 2 ^ 63 /\
  checkoutCommit 3 [] (fst (writeObjectWithType sample_tree_store (bytes_of "tree ") "commit"))
    (hexDump (hash (typedObject (bytes_of "tree ") "commit")))
  = let sp := unzip_spare (zip (typedObject (bytes_of "tree ") "commit")) in
    if negb (String.eqb "commit" "commit") then ([], Err "object not a commit")
    else if (45 <=? length (bytes_of "tree ") + sp)%nat
    then checkoutTree 3 [] (fst (writeObjectWithType sample_tree_store (bytes_of "tree ") "commit"))
           (string_of (firstn 40 (skipn 5 (bytes_of "tree " ++ repeat Byte.x00 sp)))) "."
    else ([], Panic "slice bounds out of range").
Proof.
  assert (HT : In "commit"%string ["blob"; "tree"; "commit"; "tag"]%string) by (right; right; left; reflexivity).
  assert (HP : Z.of_nat (length (bytes_of "tree ")) < 2 ^ 63) by (vm_compute; reflexivity).
  split; [exact HT|]. split; [exact HP|].
  exact (@checkoutCommit_stored toy_zlib toy_worktree (fun b => eq_refl) 3 [] sample_tree_store _ _ HT HP).
Defined.

(* ------------------------------------------------------------------ *)
(** ** writePackfile on a pack of full objects *)

Lemma bv_zb_mod (z : Z) : bv (zb z) = z mod 256.
Proof.
  rewrite <- (bv_zb (z mod 256)) by (apply Z.mod_pos_bound; lia).
  unfold zb. rewrite Z.mod_mod by lia. reflexivity.
Qed.

Lemma be32_value (z : Z) : 0 <= z < 2 ^ 32 -> be_value (be32 z) = z.
Proof.
  intros Hz. unfold be_value, be32. cbn [fold_left]. rewrite !bv_zb_mod.
  pose proof (Z.div_mod z 256 ltac:(lia)) as D1.
  pose proof (Z.div_mod (z / 256) 256 ltac:(lia)) as D2.
  pose proof (Z.div_mod (z / 256 / 256) 256 ltac:(lia)) as D3.
  rewrite !Z.div_div in D2, D3 by lia.
  change (2 ^ 8) with 256. change (2 ^ 16) with (256 * 256). change (2 ^ 24) with (256 * 256 * 256).
  rewrite Z.div_div in D3 by lia.
  assert (Hq : z / (256 * 256 * 256) < 256) by (apply Z.div_lt_upper_bound; lia).
  assert (Hq0 : 0 <= z / (256 * 256 * 256)) by (apply Z.div_pos; lia).
  rewrite (Z.mod_small (z / (256 * 256 * 256))) by lia. lia.
Qed.

Lemma pack_object_header_nonempty (t n : Z) : (1 <= length (pack_object_header t n))%nat.
Proof. unfold pack_object_header. destruct (n <? 16); cbn; lia. Qed.

Lemma length_concat_entries (es : list PackEntry) :
  (length es <= length (concat (map pack_entry_bytes es)))%nat.
Proof.
  induction es as [|e es IH]; cbn [map concat length]; [lia|]. rewrite length_app.
  unfold pack_entry_bytes at 1. rewrite length_app.
  pose proof (pack_object_header_nonempty (pe_type e) (Z.of_nat (length (pe_body e)))). lia.
Qed.

Lemma slice_from_app (l r : list byte) : slice_from (l ++ r) (length l) = Ok r.
Proof.
  unfold slice_from. rewrite length_app.
  replace (length l <=? length l + length r)%nat with true by (symmetry; apply Nat.leb_le; lia).
  rewrite drop_app_length. reflexivity.
Qed.

Section PackFacts.
Context `{Zlib}.

Lemma readPackObject_entry (st : store) (pre rest full : list byte) (e : PackEntry)
    (dl : list DeltaObject) :
  entry_ok e ->
  readPackObject st (pre ++ pack_entry_bytes e ++ rest) full (length pre) dl
  = (fst (writeObjectWithType st (pe_body e) (objectTypeStr (pe_type e))),
     Ok (length (pre ++ pack_entry_bytes e), dl)).
Proof.
  intros (Ht & Hb & Hi). unfold readPackObject. rewrite slice_from_app. cbn [obind].
  unfold pack_entry_bytes. rewrite <- app_assoc.
  rewrite readObjectHeader_header_ok by lia. cbv beta iota zeta.
  set (hdr := pack_object_header (pe_type e) (Z.of_nat (length (pe_body e)))).
  replace ((pe_type e =? 1) || (pe_type e =? 2) || (pe_type e =? 3) || (pe_type e =? 4)) with true
    by (assert (pe_type e = 1 \/ pe_type e = 2 \/ pe_type e = 3 \/ pe_type e = 4) as Hc by lia;
        repeat destruct Hc as [-> | Hc]; try rewrite Hc; reflexivity).
  rewrite app_assoc, <- length_app, slice_from_app. cbn [obind].
  unfold readObjectInPackfile. rewrite Hi. cbv beta iota zeta.
  unfold go_int. replace (Z.of_nat (length (pe_body e)) <? 2 ^ 63) with true
    by (symmetry; apply Z.ltb_lt; exact Hb).
  rewrite Z.eqb_refl. cbn [negb].
  destruct (writeObjectWithType st (pe_body e) (objectTypeStr (pe_type e))) as [st' r] eqn:Ew.
  assert (Hr : r = Ok (hash (typedObject (pe_body e) (objectTypeStr (pe_type e))))).
  { unfold writeObjectWithType in Ew. rewrite writeObject_eq in Ew.
    apply (f_equal snd) in Ew. cbn [snd] in Ew. congruence. }
  subst r. cbn [fst obind]. rewrite !length_app. do 3 f_equal. lia.
Qed.

Lemma readObjects_entries (es : list PackEntry) :
  Forall entry_ok es ->
  forall (f : nat) (st : store) (pre full : list byte) (cnt : Z) (dl : list DeltaObject),
  (length es <= f)%nat -> 0 <= cnt -> cnt + Z.of_nat (length es) < 2 ^ 32 ->
  readObjects f st (pre ++ concat (map pack_entry_bytes es)) full (length pre) cnt dl
  = (write_objects st es, Ok (cnt + Z.of_nat (length es), dl)).
Proof.
  induction 1 as [|e es He Hes IH]; intros f st pre full cnt dl Hf Hc Hn.
  - cbn [map concat]. rewrite app_nil_r, Z.add_0_r.
    destruct f; cbn [readObjects]; rewrite Nat.ltb_irrefl; reflexivity.
  - destruct f as [|f]; [cbn in Hf; lia|]. cbn [map concat readObjects].
    rewrite length_app.
    pose proof (pack_object_header_nonempty (pe_type e) (Z.of_nat (length (pe_body e)))) as Hne.
    replace (length pre <? length pre + length (pack_entry_bytes e ++ concat (map pack_entry_bytes es)))%nat
      with true by (symmetry; apply Nat.ltb_lt; unfold pack_entry_bytes; rewrite !length_app; lia).
    cbn [negb].
    rewrite (readPackObject_entry st pre _ full e dl He). cbv beta iota zeta.
    rewrite app_assoc. cbn [length] in Hf, Hn.
    rewrite Z.mod_small by lia.
    rewrite (IH f _ (pre ++ pack_entry_bytes e) full (cnt + 1) dl) by lia.
    change (write_objects st (e :: es))
      with (write_objects (fst (writeObjectWithType st (pe_body e) (objectTypeStr (pe_type e)))) es).
    replace (cnt + Z.of_nat (length (e :: es))) with (cnt + 1 + Z.of_nat (length es))
      by (cbn [length]; lia).
    reflexivity.
Qed.

End PackFacts.

(** writePackfile on a pack of full objects: a pack of version 2 or 3,
    with the right count and checksum, whose objects are commits, trees,
    blobs and tags whose zlib streams inflate to their bodies, is
    accepted, and the store afterwards is the one obtained by writing
    each object with [writeObjectWithType], in the order of the pack. *)
Theorem writePackfile_full_objects `{Zlib} (st : store) (version : Z) (es : list PackEntry) :
  (version = 2 \/ version = 3) -> Z.of_nat (length es) < 2 ^ 32 -> Forall entry_ok es ->
  writePackfile st (pack_of version es) = (write_objects st es, Ok tt).
Proof.
  intros Hv Hn Hes.
  set (E := concat (map pack_entry_bytes es)).
  assert (HB : pack_body version es = [Byte.x50; Byte.x41; Byte.x43; Byte.x4b] ++ be32 version
                 ++ be32 (Z.of_nat (length es)) ++ E) by reflexivity.
  assert (HL : length (pack_body version es) = (12 + length E)%nat) by (rewrite HB; reflexivity).
  assert (HX : length (pack_of version es) = (length (pack_body version es) + 20)%nat)
    by (unfold pack_of; rewrite length_app, length_hash; reflexivity).
  assert (Hpre : firstn (length (pack_of version es) - 20) (pack_of version es) = pack_body version es)
    by (rewrite HX, Nat.add_sub; unfold pack_of; apply take_app_length).
  unfold writePackfile.
  replace (verifyPackfile (pack_of version es)) with (Ok tt : outcome unit).
  2:{ symmetry. apply verifyPackfile_ok_iff. rewrite Hpre. split; [|split; [|split]].
      - rewrite HX, HL. lia.
      - rewrite HX, Nat.add_sub. unfold pack_of. apply drop_app_length.
      - unfold pack_of. rewrite HB. reflexivity.
      - unfold pack_of. rewrite HB. cbn [app skipn firstn].
        rewrite drop_0, <- app_assoc. change (@take byte 4) with (@take byte (length (be32 version))).
        rewrite take_app_length.
        rewrite be32_value by (destruct Hv as [-> | ->]; lia). tauto. }
  cbv beta iota zeta.
  assert (H8 : slice_from (pack_of version es) 8
               = Ok (be32 (Z.of_nat (length es)) ++ E ++ hash (pack_body version es))).
  { unfold slice_from. rewrite HX, HL.
    replace (8 <=? 12 + length E + 20)%nat with true by (symmetry; apply Nat.leb_le; lia).
    f_equal; unfold pack_of; rewrite HB; reflexivity. }
  rewrite H8. cbn [obind].
  unfold be32 at 1. cbn [app].
  change (readUint32BigEndian (zb (Z.of_nat (length es) / 2 ^ 24) :: zb (Z.of_nat (length es) / 2 ^ 16)
            :: zb (Z.of_nat (length es) / 2 ^ 8) :: zb (Z.of_nat (length es))
            :: E ++ hash (pack_body version es)))
    with (readUint32BigEndian (be32 (Z.of_nat (length es)))).
  unfold be32 at 1. rewrite readUint32BigEndian_be. fold (be32 (Z.of_nat (length es))).
  rewrite be32_value by lia. cbv beta iota zeta.
  rewrite Hpre.
  assert (HP : pack_body version es = ([Byte.x50; Byte.x41; Byte.x43; Byte.x4b] ++ be32 version
                 ++ be32 (Z.of_nat (length es))) ++ E) by (rewrite HB, <- !app_assoc; reflexivity).
  rewrite HP at 2.
  change 12%nat with (length ([Byte.x50; Byte.x41; Byte.x43; Byte.x4b] ++ be32 version
                 ++ be32 (Z.of_nat (length es)))).
  rewrite (readObjects_entries es Hes) by (rewrite ?HL; pose proof (length_concat_entries es) as HcE; fold E in HcE; lia).
  cbv beta iota zeta. rewrite Z.add_0_l, Z.eqb_refl. reflexivity.
Qed.

Lemma writePackfile_full_objects_witness :
  (2 = 2 \/ 2 = 3) /\ Z.of_nat (length sample_pack_entries) < 2 ^ 32 /\
  @Forall PackEntry (@entry_ok toy_zlib) sample_pack_entries /\
  writePackfile ∅ (pack_of 2 sample_pack_entries) = (write_objects ∅ sample_pack_entries, Ok tt).
Proof.
  assert (Hv : 2 = 2 \/ 2 = 3) by (left; reflexivity).
  assert (Hn : Z.of_nat (length sample_pack_entries) < 2 ^ 32) by (cbn; lia).
  assert (Hes : @Forall PackEntry (@entry_ok toy_zlib) sample_pack_entries)
    by (repeat constructor; cbn; try lia; intros rest; reflexivity).
  split; [exact Hv|]. split; [exact Hn|]. split; [exact Hes|].
  exact (@writePackfile_full_objects toy_zlib ∅ 2 sample_pack_entries Hv Hn Hes).
Defined.
